(** * Portfolio single-page client (src/src/App.jsx)

    A shallow embedding of the stateful logic of the page: the theme hook
    (local storage, ambient colour scheme, the marker on the document root),
    the project gallery (fetch, derived tag list, filter), the posts list,
    and the contact form with its submit handler.

    JavaScript strings are sequences of UTF-16 code units; a code unit is a
    number of type [N].  Component state is a record, a state setter is a
    function on that record, and an [async] function is a small command tree
    whose [AwaitFetch] node receives the outcome of the request. *)

From Stdlib Require Import String Ascii NArith ZArith QArith List Lia.
From stdpp Require Import base option list gmap strings.

Local Open Scope N_scope.

(** ** JavaScript strings *)

Abbreviation code_unit := N.
Abbreviation jsstring := (list code_unit).

(** A literal of the source, written with the characters of its text. *)
Definition js (s : string) : jsstring :=
  map N_of_ascii (list_ascii_of_string s).

(** [ToBoolean] on a string: only the empty string is falsy. *)
Definition truthy_string (s : jsstring) : bool :=
  match s with [] => false | _ :: _ => true end.

(** [s.length]: the number of code units. *)
Definition str_length (s : jsstring) : N := N.of_nat (length s).

(** ** Regular expressions, as far as [/.+@.+/] needs them *)

Module RegExp.

Inductive regex : Type :=
| Empty
| Eps
| Dot
| Chr (c : code_unit)
| Cat (r1 r2 : regex)
| Alt (r1 r2 : regex)
| Star (r : regex).

(** [r+] is [r r*]. *)
Definition Plus (r : regex) : regex := Cat r (Star r).

(** The LineTerminator code points: LF, CR, LS and PS.  Without the [s]
    flag, [.] matches every code unit but these. *)
Definition line_terminator (c : code_unit) : bool :=
  (c =? 10) || (c =? 13) || (c =? 8232) || (c =? 8233).

(** The words of a pattern. *)
Inductive matches : regex -> jsstring -> Prop :=
| MEps : matches Eps []
| MDot c : line_terminator c = false -> matches Dot [c]
| MChr c : matches (Chr c) [c]
| MCat r1 r2 s1 s2 :
    matches r1 s1 -> matches r2 s2 -> matches (Cat r1 r2) (s1 ++ s2)
| MAltL r1 r2 s : matches r1 s -> matches (Alt r1 r2) s
| MAltR r1 r2 s : matches r2 s -> matches (Alt r1 r2) s
| MStarNil r : matches (Star r) []
| MStarApp r s1 s2 :
    matches r s1 -> matches (Star r) s2 -> matches (Star r) (s1 ++ s2).

Fixpoint nullable (r : regex) : bool :=
  match r with
  | Empty => false
  | Eps => true
  | Dot => false
  | Chr _ => false
  | Cat r1 r2 => nullable r1 && nullable r2
  | Alt r1 r2 => nullable r1 || nullable r2
  | Star _ => true
  end.

(** The pattern left to match once the code unit [c] has been read. *)
Fixpoint deriv (c : code_unit) (r : regex) : regex :=
  match r with
  | Empty => Empty
  | Eps => Empty
  | Dot => if line_terminator c then Empty else Eps
  | Chr d => if c =? d then Eps else Empty
  | Cat r1 r2 =>
      if nullable r1
      then Alt (Cat (deriv c r1) r2) (deriv c r2)
      else Cat (deriv c r1) r2
  | Alt r1 r2 => Alt (deriv c r1) (deriv c r2)
  | Star r1 => Cat (deriv c r1) (Star r1)
  end.

(** Is there a match that starts at the head of [s]? *)
Fixpoint match_here (r : regex) (s : jsstring) : bool :=
  nullable r ||
  match s with
  | [] => false
  | c :: s' => match_here (deriv c r) s'
  end.

(** [RegExp.prototype.test] of a pattern with no [g] or [y] flag: the
    search starts at index 0 and tries every start position in turn. *)
Fixpoint test (r : regex) (s : jsstring) : bool :=
  match_here r s ||
  match s with
  | [] => false
  | _ :: s' => test r s'
  end.

End RegExp.

(** ** [JSON.stringify] on strings *)

Module JSON.

Definition leading_surrogate (c : code_unit) : bool :=
  (55296 <=? c) && (c <=? 56319).

Definition trailing_surrogate (c : code_unit) : bool :=
  (56320 <=? c) && (c <=? 57343).

(** A lower-case hexadecimal digit. *)
Definition hex_digit (n : N) : code_unit :=
  if n <? 10 then 48 + n else 87 + n.

(** [UnicodeEscape]: a backslash, [u] and four hexadecimal digits. *)
Definition unicode_escape (c : code_unit) : jsstring :=
  [92; 117; hex_digit (c / 4096 mod 16); hex_digit (c / 256 mod 16);
   hex_digit (c / 16 mod 16); hex_digit (c mod 16)].

(** One code unit that is not the first half of a surrogate pair. *)
Definition escape_unit (c : code_unit) : jsstring :=
  if c =? 8 then [92; 98]
  else if c =? 9 then [92; 116]
  else if c =? 10 then [92; 110]
  else if c =? 12 then [92; 102]
  else if c =? 13 then [92; 114]
  else if c =? 34 then [92; 34]
  else if c =? 92 then [92; 92]
  else if (c <? 32) || leading_surrogate c || trailing_surrogate c
       then unicode_escape c
  else [c].

(** The characters between the quotes of [QuoteJSONString]: a surrogate
    pair is copied, a lone surrogate is escaped. *)
Fixpoint quote_chars (s : jsstring) : jsstring :=
  match s with
  | [] => []
  | c :: s' =>
      match s' with
      | d :: s'' =>
          if leading_surrogate c && trailing_surrogate d
          then c :: d :: quote_chars s''
          else escape_unit c ++ quote_chars s'
      | [] => escape_unit c
      end
  end.

Definition quote (s : jsstring) : jsstring := [34] ++ quote_chars s ++ [34].

(** An object whose properties all hold strings, serialised with no gap,
    its properties in the order given. *)
Definition stringify_object (props : list (jsstring * jsstring)) : jsstring :=
  let member (kv : jsstring * jsstring) := quote kv.1 ++ [58] ++ quote kv.2 in
  let fix join (ms : list jsstring) : jsstring :=
    match ms with
    | [] => []
    | [m] => m
    | m :: ms' => m ++ [44] ++ join ms'
    end in
  [123] ++ join (map member props) ++ [125].

End JSON.

(** ** Requests, responses and asynchronous handlers *)

Inductive Method := GET | POST.

Record Request := {
  url : jsstring;
  method : Method;
  headers : list (jsstring * jsstring);
  body : option jsstring
}.

(** What the code reads of a response: [res.ok], and the value [res.json()]
    resolves to; [None] when the body does not parse and [res.json()]
    rejects. *)
Record Response (A : Type) := {
  ok : bool;
  json : option A
}.
Arguments ok {A} _.
Arguments json {A} _.

(** The promise returned by [fetch]: it rejects on a network failure. *)
Inductive outcome (A : Type) :=
| Resolved (res : Response A)
| Rejected.
Arguments Resolved {A} res.
Arguments Rejected {A}.

(** The body of an event handler or of an [async] function over the state
    [St] of its component. *)
Inductive routine (St A : Type) : Type :=
| Return
| PreventDefault (k : routine St A)
| SetState (f : St -> St) (k : routine St A)
| AwaitFetch (req : Request) (k : outcome A -> routine St A).
Arguments Return {St A}.
Arguments PreventDefault {St A} k.
Arguments SetState {St A} f k.
Arguments AwaitFetch {St A} req k.

Inductive event (St : Type) :=
| default_prevented
| state_set (st : St)
| request_sent (req : Request).
Arguments default_prevented {St}.
Arguments state_set {St} st.
Arguments request_sent {St} req.

(** Run a routine to its end against a network that answers [net req]; the
    result is the last state and what happened, in order. *)
Fixpoint run {St A} (t : routine St A) (net : Request -> outcome A) (st : St)
  : St * list (event St) :=
  match t with
  | Return => (st, [])
  | PreventDefault k =>
      let r := run k net st in (r.1, default_prevented :: r.2)
  | SetState f k =>
      let r := run k net (f st) in (r.1, state_set (f st) :: r.2)
  | AwaitFetch req k =>
      let r := run (k (net req)) net st in (r.1, request_sent req :: r.2)
  end.

(** Run a routine up to its first [await]: the state the component is left in
    while the request is in flight, and the request, if one was sent. *)
Fixpoint until_await {St A} (t : routine St A) (st : St)
  : St * option Request :=
  match t with
  | Return => (st, None)
  | PreventDefault k => until_await k st
  | SetState f k => until_await k (f st)
  | AwaitFetch req _ => (st, Some req)
  end.

(** The requests among the events. *)
Definition requests {St} (evs : list (event St)) : list Request :=
  omap (fun e => match e with request_sent r => Some r | _ => None end) evs.

(** The states the setters produced, in order. *)
Definition states {St} (evs : list (event St)) : list St :=
  omap (fun e => match e with state_set s => Some s | _ => None end) evs.

(** ** Values a JSON body parses to

    [res.json()] resolves to a JSON value.  An array holds the records of
    the endpoint, of type [A]: arrays with other elements are outside this
    type.  An object is kept with its string-valued properties, the shape
    of an error body; of members with the same key [JSON.parse] keeps the
    last.  A number is a finite double, kept as the rational it is. *)
Inductive data (A : Type) :=
| JNull
| JBool (b : bool)
| JNum (n : Q)
| JStr (s : jsstring)
| JObj (props : list (jsstring * jsstring))
| JArr (xs : list A).
Arguments JNull {A}.
Arguments JBool {A} b.
Arguments JNum {A} n.
Arguments JStr {A} s.
Arguments JObj {A} props.
Arguments JArr {A} xs.

(** Rendering either gives a view or throws. *)
Inductive thrown := TypeError.

Inductive result (A : Type) :=
| Ok (a : A)
| Throw (e : thrown).
Arguments Ok {A} a.
Arguments Throw {A} e.

Definition bind {A B} (r : result A) (f : A -> result B) : result B :=
  match r with
  | Ok a => f a
  | Throw e => Throw e
  end.

Notation "'let*' x := r 'in' k" := (bind r (fun x => k))
  (at level 10, x name, r at level 100, k at level 200).

(** [SameValueZero] on strings, by code units. *)
Fixpoint same_string (s t : jsstring) : bool :=
  match s, t with
  | [], [] => true
  | c :: s', d :: t' => (c =? d) && same_string s' t'
  | _, _ => false
  end.

(** [Array.prototype.includes] on an array of strings. *)
Fixpoint includes (xs : list jsstring) (x : jsstring) : bool :=
  match xs with
  | [] => false
  | y :: xs' => same_string y x || includes xs' x
  end.

(** [new Set(iterable)]: every element is added in turn, and [add] keeps
    the first occurrence in its place.  [Array.from] then lists the set in
    insertion order. *)
Definition Set_add (set : list jsstring) (x : jsstring) : list jsstring :=
  if includes set x then set else set ++ [x].

Definition new_Set (xs : list jsstring) : list jsstring :=
  fold_left Set_add xs [].

Definition Array_from (set : list jsstring) : list jsstring := set.

(** The index of the first occurrence of [x] in [xs], if there is one. *)
Fixpoint first_index (xs : list jsstring) (x : jsstring) : option nat :=
  match xs with
  | [] => None
  | y :: xs' => if same_string y x then Some 0%nat else S <$> first_index xs' x
  end.

(** ** The browser: local storage, colour scheme, document root *)

Record Browser := {
  localStorage : gmap jsstring jsstring;
  prefers_dark : bool;
  classList : gset jsstring
}.

(** [BACKEND], from [import.meta.env.VITE_BACKEND_URL], which is undefined
    when unset. *)
Definition BACKEND (VITE_BACKEND_URL : option jsstring) : jsstring :=
  match VITE_BACKEND_URL with
  | Some u => if truthy_string u then u else js "http://localhost:8000"
  | None => js "http://localhost:8000"
  end.

(** ** useTheme and the effect of App *)

Module Theme.

(** The initial state of the hook. *)
Definition initial_theme (b : Browser) : jsstring :=
  let ambient := if prefers_dark b then js "dark" else js "light" in
  match localStorage b !! js "theme" with
  | Some stored => if truthy_string stored then stored else ambient
  | None => ambient
  end.

(** The effect of the hook, run after a render in which [theme] changed. *)
Definition theme_effect (theme : jsstring) (b : Browser) : Browser :=
  {| localStorage := <[js "theme" := theme]> (localStorage b);
     prefers_dark := prefers_dark b;
     classList :=
       if same_string theme (js "dark")
       then classList b ∪ {[js "dark"]}
       else classList b ∖ {[js "dark"]} |}.

(** The effect of [App], run once after the first render. *)
Definition App_effect (b : Browser) : Browser :=
  {| localStorage := localStorage b;
     prefers_dark := prefers_dark b;
     classList := classList b ∪ {[js "dark"]} |}.

Record AppState := {
  theme : jsstring;
  browser : Browser
}.

(** The first render of [App] and its effects, in the order of the hooks:
    the effect of [useTheme], then the effect of [App] itself. *)
Definition mount (b : Browser) : AppState :=
  let theme := initial_theme b in
  {| theme := theme; browser := App_effect (theme_effect theme b) |}.

(** [setTheme]: a state that does not change causes no render and no
    effect; otherwise the effect of [useTheme] runs with the new theme. *)
Definition setTheme (v : jsstring) (a : AppState) : AppState :=
  if same_string v (theme a) then a
  else {| theme := v; browser := theme_effect v (browser a) |}.

(** The click handler of the theme button of [Navbar]. *)
Definition toggle_theme (a : AppState) : AppState :=
  setTheme (if same_string (theme a) (js "dark") then js "light" else js "dark") a.

End Theme.

(** ** Projects *)

Module Projects.

Record Project := {
  slug : jsstring;
  title : jsstring;
  description : jsstring;
  cover_url : option jsstring;
  tags : option (list jsstring);
  stack : option (list jsstring);
  demo_url : option jsstring;
  github_url : option jsstring;
  featured : bool;
  impact : option jsstring
}.

Record State := {
  projects : data Project;
  active : jsstring;
  loading : bool;
  error : jsstring
}.

Definition initial : State :=
  {| projects := JArr []; active := js "All"; loading := true; error := [] |}.

Definition setProjects (d : data Project) (st : State) : State :=
  {| projects := d; active := active st; loading := loading st; error := error st |}.

Definition setActive (t : jsstring) (st : State) : State :=
  {| projects := projects st; active := t; loading := loading st; error := error st |}.

Definition setLoading (b : bool) (st : State) : State :=
  {| projects := projects st; active := active st; loading := b; error := error st |}.

Definition setError (e : jsstring) (st : State) : State :=
  {| projects := projects st; active := active st; loading := loading st; error := e |}.

Section Load.

Variable VITE_BACKEND_URL : option jsstring.

(** [load], with its [try], [catch] and [finally]. *)
Definition load : routine State (data Project) :=
  let finally_ := SetState (setLoading false) Return in
  let catch := SetState (setError (js "Could not load projects")) finally_ in
  AwaitFetch
    {| url := BACKEND VITE_BACKEND_URL ++ js "/api/projects";
       method := GET; headers := []; body := None |}
    (fun out =>
       match out with
       | Resolved res =>
           match json res with
           | Some d => SetState (setProjects d) finally_
           | None => catch
           end
       | Rejected => catch
       end).

End Load.

(** [p.tags || []] *)
Definition tags_or_empty (p : Project) : list jsstring :=
  match tags p with
  | Some ts => ts
  | None => []
  end.

(** [projects.flatMap(p => p.tags || [])]: only an array has [flatMap]. *)
Definition flatMap_tags (d : data Project) : result (list jsstring) :=
  match d with
  | JArr ps => Ok (flat_map tags_or_empty ps)
  | _ => Throw TypeError
  end.

(** The memoised [tags]. *)
Definition tags_of (d : data Project) : result (list jsstring) :=
  let* all := flatMap_tags d in Ok (Array_from (new_Set all)).

(** [p.tags?.includes(active)], as a condition. *)
Definition has_tag (t : jsstring) (p : Project) : bool :=
  match tags p with
  | Some ts => includes ts t
  | None => false
  end.

(** The memoised [filtered]. *)
Definition filtered_of (d : data Project) (t : jsstring) : result (data Project) :=
  if same_string t (js "All") then Ok d
  else match d with
       | JArr ps => Ok (JArr (List.filter (has_tag t) ps))
       | _ => Throw TypeError
       end.

Inductive content :=
| Loading
| ErrorText (msg : jsstring)
| Grid (cards : list Project).

Record View := {
  pills : list jsstring;
  shown : content
}.

(** What [Projects] renders: the filter pills and, below, the loading line,
    the error line or the grid of cards. *)
Definition render (st : State) : result View :=
  let* tags := tags_of (projects st) in
  let* filtered := filtered_of (projects st) (active st) in
  let* shown :=
    if loading st then Ok Loading
    else if truthy_string (error st) then Ok (ErrorText (error st))
    else match filtered with
         | JArr ps => Ok (Grid ps)
         | _ => Throw TypeError
         end in
  Ok {| pills := js "All" :: tags; shown := shown |}.

(** *** Vocabulary of the statements about the gallery *)

(** The tag [t] is among the tags of [p]; a project with no tag list has
    no tag. *)
Definition tagged (t : jsstring) (p : Project) : Prop :=
  match tags p with
  | Some ts => t ∈ ts
  | None => False
  end.

#[export] Instance tagged_dec t p : Decision (tagged t p).
Proof. unfold tagged. destruct (tags p); apply _. Defined.

(** Every tag of every project, in fetched order. *)
Definition all_tags (ps : list Project) : list jsstring :=
  flat_map tags_or_empty ps.

(** Two projects that share a tag, and between them one with no tag list. *)
Definition project (s : string) (ts : option (list jsstring)) : Project :=
  {| slug := js s; title := js s; description := [];
     cover_url := None; tags := ts; stack := None;
     demo_url := None; github_url := None; featured := false; impact := None |}.

Definition gallery : list Project :=
  [project "kv" (Some [js "Rust"; js "Systems"]);
   project "notes" None;
   project "feed" (Some [js "React"; js "Rust"])].

End Projects.

(** ** Blog *)

Module Blog.

Record Post := {
  slug : jsstring;
  title : jsstring;
  excerpt : option jsstring;
  content : jsstring
}.

Record State := { posts : data Post }.

Definition initial : State := {| posts := JArr [] |}.

Definition setPosts (d : data Post) (st : State) : State := {| posts := d |}.

(** A post, for the examples. *)
Definition hello : Post :=
  {| slug := js "hello"; title := js "Hello"; excerpt := None;
     content := js "First note" |}.

Section Load.

Variable VITE_BACKEND_URL : option jsstring.

(** The promise chain of the effect; the final [catch] swallows both a
    rejected [fetch] and a rejected [r.json()]. *)
Definition load : routine State (data Post) :=
  AwaitFetch
    {| url := BACKEND VITE_BACKEND_URL ++ js "/api/posts";
       method := GET; headers := []; body := None |}
    (fun out =>
       match out with
       | Resolved res =>
           match json res with
           | Some d => SetState (setPosts d) Return
           | None => Return
           end
       | Rejected => Return
       end).

End Load.

(** [!posts.length]: reading a property of [null] throws; a boolean and a
    number have no [length]; an object has the one among its own
    properties, if any, the last member of that key. *)
Definition no_length (d : data Post) : result bool :=
  match d with
  | JNull => Throw TypeError
  | JBool _ => Ok true
  | JNum _ => Ok true
  | JStr s => Ok (negb (truthy_string s))
  | JObj props =>
      match list_find (fun kv => same_string kv.1 (js "length") = true)
                      (reverse props) with
      | Some (_, (_, v)) => Ok (negb (truthy_string v))
      | None => Ok true
      end
  | JArr xs => Ok (match xs with [] => true | _ :: _ => false end)
  end.

(** What [Blog] renders: [None] is [null], no element at all; otherwise the
    section with one article for each post. *)
Definition render (st : State) : result (option (list Post)) :=
  let* nothing := no_length (posts st) in
  if nothing then Ok None
  else match posts st with
       | JArr xs => Ok (Some xs)
       | _ => Throw TypeError
       end.

End Blog.

(** ** Contact *)

Module Contact.

Inductive Status := idle | loading | success | error.

Definition status_eqb (a b : Status) : bool :=
  match a, b with
  | idle, idle | loading, loading | success, success | error, error => true
  | _, _ => false
  end.

Record Form := {
  name : jsstring;
  email : jsstring;
  message : jsstring
}.

Record State := {
  status : Status;
  form : Form
}.

Definition initial : State :=
  {| status := idle; form := {| name := []; email := []; message := [] |} |}.

Definition setStatus (s : Status) (st : State) : State :=
  {| status := s; form := form st |}.

Definition setForm (f : Form -> Form) (st : State) : State :=
  {| status := status st; form := f (form st) |}.

(** The pattern [/.+@.+/]; 64 is the at sign. *)
Definition email_pattern : RegExp.regex :=
  RegExp.Cat (RegExp.Plus RegExp.Dot)
    (RegExp.Cat (RegExp.Chr 64) (RegExp.Plus RegExp.Dot)).

(** The truth value of [valid]. *)
Definition valid (f : Form) : bool :=
  truthy_string (name f)
  && RegExp.test email_pattern (email f)
  && (5 <? str_length (message f)).

(** [JSON.stringify(form)]: the keys are in the order of the initial
    object, which the spread in the [onChange] handlers keeps. *)
Definition stringify_form (f : Form) : jsstring :=
  JSON.stringify_object
    [(js "name", name f); (js "email", email f); (js "message", message f)].

Section Submit.

Variable VITE_BACKEND_URL : option jsstring.

(** The type of the response body, which [submit] never reads. *)
Context {A : Type}.

Definition contact_request (f : Form) : Request :=
  {| url := BACKEND VITE_BACKEND_URL ++ js "/api/contact";
     method := POST;
     headers := [(js "Content-Type", js "application/json")];
     body := Some (stringify_form f) |}.

(** [submit], as created by the render of the state [st]. *)
Definition submit (st : State) : routine State A :=
  PreventDefault
    (if negb (valid (form st)) then Return
     else
       SetState (setStatus loading)
         (AwaitFetch (contact_request (form st))
            (fun out =>
               match out with
               | Resolved res =>
                   if ok res then SetState (setStatus success) Return
                   else SetState (setStatus error) Return
               | Rejected => SetState (setStatus error) Return
               end))).

(** The [disabled] attribute of the button. *)
Definition button_disabled (st : State) : bool :=
  negb (valid (form st)) || status_eqb (status st) loading.

(** The constraint validation of the browser: the form has no
    [noValidate], its three fields are [required] and the email field has
    [type="email"], so the browser checks the fields before it fires the
    submit event.  The check is the browser's; it is given the fields. *)
Variable validates : Form -> bool.

(** The user activates the submit button: a disabled button does not
    submit its form, and a form the browser finds invalid gets no submit
    event. *)
Definition press_submit (st : State) : routine State A :=
  if button_disabled st then Return
  else if validates (form st) then submit st
  else Return.

End Submit.

(** The [onChange] handlers of the three fields. *)
Definition edit_name (v : jsstring) : State -> State :=
  setForm (fun f => {| name := v; email := email f; message := message f |}).

Definition edit_email (v : jsstring) : State -> State :=
  setForm (fun f => {| name := name f; email := v; message := message f |}).

Definition edit_message (v : jsstring) : State -> State :=
  setForm (fun f => {| name := name f; email := email f; message := v |}).

(** *** Vocabulary of the statements about the form *)

(** An at sign with a non-empty segment on each side. *)
Definition at_sign_between (s : jsstring) : Prop :=
  exists l r : jsstring, s = l ++ 64 :: r /\ l <> [] /\ r <> [].

(** The status the two branches of [submit] after the [await] leave. *)
Definition settled {A} (o : outcome A) : Status :=
  match o with
  | Resolved res => if ok res then success else error
  | Rejected => error
  end.

(** A form that passes the guard: Ann, ann@x.io, Hello there. *)
Definition ann : Form :=
  {| name := js "Ann"; email := js "ann@x.io"; message := js "Hello there" |}.

End Contact.

(** ** Constraint validation, as the HTML Standard defines it

    The value of a text field is its string with the newlines stripped; the
    value of an email field has, besides, its leading and trailing ASCII
    whitespace stripped.  A required field must have a non-empty value, and
    the value of an email field must be a valid e-mail address: one or more
    characters of [atext] or dots, an at sign, and one or more labels
    separated by dots, a label being at most 63 letters, digits and hyphens
    that begins and ends with a letter or a digit.  A browser may accept
    more, an internationalised domain for one: what is proved of
    [press_submit] is proved for every check, and this one serves where a
    statement needs a given check. *)

Module ConstraintValidation.
Import Contact.

Definition newline (c : code_unit) : bool := (c =? 10) || (c =? 13).

Definition ascii_whitespace (c : code_unit) : bool :=
  (c =? 9) || (c =? 10) || (c =? 12) || (c =? 13) || (c =? 32).

Definition strip_newlines (s : jsstring) : jsstring :=
  List.filter (fun c => negb (newline c)) s.

Fixpoint strip_leading (s : jsstring) : jsstring :=
  match s with
  | [] => []
  | c :: s' => if ascii_whitespace c then strip_leading s' else s
  end.

Definition strip_whitespace (s : jsstring) : jsstring :=
  rev (strip_leading (rev (strip_leading s))).

Definition alnum (c : code_unit) : bool :=
  ((48 <=? c) && (c <=? 57)) || ((65 <=? c) && (c <=? 90))
  || ((97 <=? c) && (c <=? 122)).

(** The characters of [atext] that are neither letters nor digits:
    ! # $ % & ' * + - / = ? ^ _ ` { | } ~ *)
Definition atext (c : code_unit) : bool :=
  alnum c
  || existsb (N.eqb c)
       [33; 35; 36; 37; 38; 39; 42; 43; 45; 47; 61; 63; 94; 95; 96;
        123; 124; 125; 126].

(** The pieces of [s] between the occurrences of [sep]. *)
Fixpoint split_on (sep : code_unit) (s : jsstring) : list jsstring :=
  match s with
  | [] => [[]]
  | c :: s' =>
      if c =? sep then [] :: split_on sep s'
      else match split_on sep s' with
           | piece :: pieces => (c :: piece) :: pieces
           | [] => [[c]]
           end
  end.

Definition valid_label (l : jsstring) : bool :=
  match l with
  | [] => false
  | c :: _ =>
      alnum c && alnum (List.last l c) && (length l <=? 63)%nat
      && forallb (fun x => alnum x || (x =? 45)) l
  end.

(** 64 is the at sign, 46 the dot. *)
Definition valid_email_address (s : jsstring) : bool :=
  match split_on 64 s with
  | [local; domain] =>
      truthy_string local
      && forallb (fun c => atext c || (c =? 46)) local
      && forallb valid_label (split_on 46 domain)
  | _ => false
  end.

(** The check of the three fields of the contact form. *)
Definition html_validates (f : Form) : bool :=
  truthy_string (strip_newlines (name f))
  && (let v := strip_whitespace (strip_newlines (email f)) in
      truthy_string v && valid_email_address v)
  && truthy_string (message f).

(** A form that passes the guard of [submit] and not the check of the
    browser: the email has a space in it. *)
Definition spaced : Form :=
  {| name := js "Ann"; email := js "a b@c"; message := js "Hello there" |}.

End ConstraintValidation.

(** ** A component under the events of the page

    Between two events a component is its state and the continuations of
    the requests it has in flight.  An event runs a routine up to its first
    [await]; when a request settles, its continuation runs in the state the
    component has by then. *)

Fixpoint suspend {St A} (t : routine St A) (st : St)
  : St * option (Request * (outcome A -> routine St A)) :=
  match t with
  | Return => (st, None)
  | PreventDefault k => suspend k st
  | SetState f k => suspend k (f st)
  | AwaitFetch req k => (st, Some (req, k))
  end.

Record Config (St A : Type) := {
  state : St;
  in_flight : list (outcome A -> routine St A);
  sent : list Request
}.
Arguments state {St A} _.
Arguments in_flight {St A} _.
Arguments sent {St A} _.

Definition dispatch {St A} (t : routine St A) (c : Config St A) : Config St A :=
  let r := suspend t (state c) in
  match r.2 with
  | Some (req, k) =>
      {| state := r.1; in_flight := in_flight c ++ [k]; sent := sent c ++ [req] |}
  | None =>
      {| state := r.1; in_flight := in_flight c; sent := sent c |}
  end.

(** The [n]-th request in flight settles with the outcome [o]. *)
Definition settle {St A} (n : nat) (o : outcome A) (c : Config St A) : Config St A :=
  match in_flight c !! n with
  | Some k =>
      dispatch (k o)
        {| state := state c; in_flight := delete n (in_flight c); sent := sent c |}
  | None => c
  end.

(** *** The contact form under edits, presses of the button and responses *)

Module ContactPage.
Import Contact.

Inductive input (A : Type) :=
| EditName (v : jsstring)
| EditEmail (v : jsstring)
| EditMessage (v : jsstring)
| Press
| Settle (n : nat) (o : outcome A).
Arguments EditName {A} v.
Arguments EditEmail {A} v.
Arguments EditMessage {A} v.
Arguments Press {A}.
Arguments Settle {A} n o.

Definition mounted {A} : Config State A :=
  {| state := initial; in_flight := []; sent := [] |}.

Definition step {A} (env : option jsstring) (validates : Form -> bool)
    (c : Config State A) (i : input A) : Config State A :=
  match i with
  | EditName v => dispatch (SetState (edit_name v) Return) c
  | EditEmail v => dispatch (SetState (edit_email v) Return) c
  | EditMessage v => dispatch (SetState (edit_message v) Return) c
  | Press => dispatch (press_submit env validates (state c)) c
  | Settle n o => settle n o c
  end.

Definition after {A} (env : option jsstring) (validates : Form -> bool)
    (inputs : list (input A)) : Config State A :=
  fold_left (step env validates) inputs mounted.

(** What holds of the form after any sequence of inputs: every
    continuation in flight is the one of [submit]; there is one exactly
    when the status is loading, and none otherwise; every request sent
    carried a form that passed the guard. *)
Definition inv {A} (env : option jsstring) (c : Config State A) : Prop :=
  (forall k, k ∈ in_flight c ->
     forall o st, suspend (k o) st = (setStatus (settled o) st, None))
  /\ ((in_flight c = [] /\ status (state c) <> loading)
      \/ (exists k, in_flight c = [k] /\ status (state c) = loading))
  /\ (forall req, req ∈ sent c ->
        exists f, valid f = true /\ req = contact_request env f).

(** The inputs that are edits of a field. *)
Definition is_edit {A} (i : input A) : bool :=
  match i with
  | EditName _ | EditEmail _ | EditMessage _ => true
  | Press | Settle _ _ => false
  end.

End ContactPage.

(** *** The gallery under clicks on the pills and the response *)

Module ProjectsPage.
Import Projects.

Inductive input :=
| Click (i : nat)
| Settle (n : nat) (o : outcome (data Project)).

(** The effect of the first render has called [load]. *)
Definition mounted (env : option jsstring) : Config State (data Project) :=
  dispatch (load env) {| state := initial; in_flight := []; sent := [] |}.

(** A click on the [i]-th pill calls [onChange] with its tag; a page whose
    render threw has no pill left. *)
Definition click (i : nat) (c : Config State (data Project))
  : Config State (data Project) :=
  match render (state c) with
  | Ok v =>
      match pills v !! i with
      | Some t => dispatch (SetState (setActive t) Return) c
      | None => c
      end
  | Throw _ => c
  end.

Definition step (c : Config State (data Project)) (i : input)
  : Config State (data Project) :=
  match i with
  | Click i => click i c
  | Settle n o => settle n o c
  end.

Definition after (env : option jsstring) (inputs : list input)
  : Config State (data Project) :=
  fold_left step inputs (mounted env).

(** The request of [load]. *)
Definition load_request (env : option jsstring) : Request :=
  {| url := BACKEND env ++ js "/api/projects";
     method := GET; headers := []; body := None |}.

(** What holds of the gallery after any sequence of inputs: one request
    has been sent; either it is in flight, with the continuation of [load],
    and the state is the initial one, or nothing is in flight, the loading
    flag is down and, when the stored value is an array, the active filter
    is All or one of its tags. *)
Definition inv (env : option jsstring) (c : Config State (data Project)) : Prop :=
  sent c = [load_request env]
  /\ ((state c = initial
       /\ exists k, in_flight c = [k]
            /\ (suspend (load env) initial).2 = Some (load_request env, k))
      \/ (in_flight c = [] /\ loading (state c) = false
          /\ forall ps, projects (state c) = JArr ps ->
               active (state c) ∈ js "All" :: new_Set (all_tags ps))).

End ProjectsPage.

(** ** ProjectCard *)

Module ProjectCard.
Import Projects.

(** [a || b] where [a] is a string that may be missing. *)
Definition or_else (a : option jsstring) (b : jsstring) : jsstring :=
  match a with
  | Some u => if truthy_string u then u else b
  | None => b
  end.

(** [p.demo_url || p.github_url || `#case-${p.slug}`] *)
Definition href (p : Project) : jsstring :=
  or_else (demo_url p) (or_else (github_url p) (js "#case-" ++ slug p)).

(** [p.stack?.slice(0, 5)], nothing when there is no stack. *)
Definition labels (p : Project) : list jsstring :=
  match stack p with
  | Some ls => take 5 ls
  | None => []
  end.

(** The value of [backgroundImage], [None] for undefined. *)
Definition background (p : Project) : option jsstring :=
  match cover_url p with
  | Some u => if truthy_string u then Some (js "url(" ++ u ++ js ")") else None
  | None => None
  end.

(** The paragraph of [p.impact], when there is one to show. *)
Definition note (p : Project) : option jsstring :=
  match impact p with
  | Some t => if truthy_string t then Some t else None
  | None => None
  end.

Record Card := {
  link : jsstring;
  image : option jsstring;
  star : bool;
  heading : jsstring;
  text : jsstring;
  chips : list jsstring;
  footnote : option jsstring
}.

Definition render (p : Project) : Card :=
  {| link := href p; image := background p; star := featured p;
     heading := title p; text := description p;
     chips := labels p; footnote := note p |}.

End ProjectCard.

(** ** Navbar: hiding on scroll *)

Module Navbar.

(** [a > b] on scroll positions, which are finite numbers. *)
Definition gt (a b : Q) : bool := negb (Qle_bool a b).

(** The state [hidden] and the variable [last] of the effect. *)
Record State := {
  hidden : bool;
  last : Q
}.

(** The first render and its effect, at the scroll position [scrollY]. *)
Definition mounted (scrollY : Q) : State :=
  {| hidden := false; last := scrollY |}.

(** [onScroll], with [curr] the scroll position at the event. *)
Definition onScroll (st : State) (curr : Q) : State :=
  {| hidden := gt curr (last st) && gt curr (64 # 1); last := curr |}.

(** The vertical offset the bar is animated to. *)
Definition offset (st : State) : Z := if hidden st then (-72)%Z else 0%Z.

Definition after (scrollY : Q) (samples : list Q) : State :=
  fold_left onScroll samples (mounted scrollY).

End Navbar.

(** ** useKeyToggle *)

Module KeyToggle.

Section Handler.

(** [String.prototype.toLowerCase], left to the platform. *)
Variable toLowerCase : jsstring -> jsstring.

(** The hook was called with [key]; the [keydown] handler receives an
    event whose key is [pressed]. *)
Definition handler (key : jsstring) (on : bool) (pressed : jsstring) : bool :=
  if same_string (toLowerCase pressed) (toLowerCase key) then negb on else on.

Definition after (key : jsstring) (presses : list jsstring) : bool :=
  fold_left (handler key) presses false.

End Handler.

End KeyToggle.

(** ** Reading back what [JSON.stringify] wrote

    The reader of a JSON string literal, and of an object of the three
    string properties of the form, as the receiver of the request parses
    them. *)

Module JSONRead.

Definition hex_value (c : code_unit) : option N :=
  if (48 <=? c) && (c <=? 57) then Some (c - 48)
  else if (97 <=? c) && (c <=? 102) then Some (c - 87)
  else if (65 <=? c) && (c <=? 70) then Some (c - 55)
  else None.

(** The character a two-character escape stands for. *)
Definition unescape (e : code_unit) : option code_unit :=
  if e =? 98 then Some 8
  else if e =? 116 then Some 9
  else if e =? 110 then Some 10
  else if e =? 102 then Some 12
  else if e =? 114 then Some 13
  else if e =? 34 then Some 34
  else if e =? 47 then Some 47
  else if e =? 92 then Some 92
  else None.

(** Read the characters of a string literal whose opening quote has been
    read: the string, and what follows the closing quote. *)
Fixpoint read_chars (s : jsstring) : option (jsstring * jsstring) :=
  match s with
  | [] => None
  | c :: s1 =>
      if c =? 34 then Some ([], s1)
      else if c =? 92 then
        match s1 with
        | [] => None
        | e :: s2 =>
            if e =? 117 then
              match s2 with
              | h1 :: h2 :: h3 :: h4 :: s3 =>
                  match hex_value h1, hex_value h2, hex_value h3, hex_value h4,
                        read_chars s3 with
                  | Some a, Some b, Some c', Some d, Some (w, rest) =>
                      Some ((4096 * a + 256 * b + 16 * c' + d) :: w, rest)
                  | _, _, _, _, _ => None
                  end
              | _ => None
              end
            else
              match unescape e, read_chars s2 with
              | Some u, Some (w, rest) => Some (u :: w, rest)
              | _, _ => None
              end
        end
      else
        match read_chars s1 with
        | Some (w, rest) => Some (c :: w, rest)
        | None => None
        end
  end.

(** Read the exact characters [p]. *)
Fixpoint expect (p s : jsstring) : option jsstring :=
  match p, s with
  | [], _ => Some s
  | a :: p', b :: s' => if a =? b then expect p' s' else None
  | _ :: _, [] => None
  end.

(** Read an object of the three properties name, email and message, in
    that order and with no gap; 34 is the quote, 58 the colon, 44 the
    comma, 123 and 125 the braces. *)
Definition read_form (s : jsstring) : option Contact.Form :=
  s1 ← expect ([123; 34] ++ js "name" ++ [34; 58; 34]) s;
  '(n, s2) ← read_chars s1;
  s3 ← expect ([44; 34] ++ js "email" ++ [34; 58; 34]) s2;
  '(e, s4) ← read_chars s3;
  s5 ← expect ([44; 34] ++ js "message" ++ [34; 58; 34]) s4;
  '(m, s6) ← read_chars s5;
  s7 ← expect [125] s6;
  match s7 with
  | [] => Some {| Contact.name := n; Contact.email := e; Contact.message := m |}
  | _ :: _ => None
  end.

End JSONRead.

(** * Properties *)

(** ** The matcher agrees with the words of a pattern *)

Module RegExpFacts.
Import RegExp.

Lemma matches_nil_nullable r : matches r [] -> nullable r = true.
Proof.
  intros H. remember [] as s eqn:Es. induction H; simpl; try discriminate; auto.
  - apply app_eq_nil in Es as [-> ->]. rewrite IHmatches1, IHmatches2; auto.
  - rewrite IHmatches; auto.
  - rewrite IHmatches; auto using orb_true_r.
Qed.

Lemma nullable_matches_nil r : nullable r = true -> matches r [].
Proof.
  induction r; simpl; intros H; try discriminate.
  - constructor.
  - apply andb_true_iff in H as [H1 H2].
    change (@nil N) with (@nil N ++ []). constructor; auto.
  - apply orb_true_iff in H as [H|H]; [apply MAltL | apply MAltR]; auto.
  - constructor.
Qed.

Lemma deriv_sound c r s : matches (deriv c r) s -> matches r (c :: s).
Proof.
  revert s. induction r; simpl; intros s H.
  - inversion H.
  - inversion H.
  - destruct (line_terminator c) eqn:E; inversion H; subst. now constructor.
  - destruct (N.eqb_spec c c0); inversion H; subst. constructor.
  - destruct (nullable r1) eqn:E.
    + inversion H; subst.
      * inversion H3; subst. change (c :: s1 ++ s2) with ((c :: s1) ++ s2).
        constructor; auto.
      * change (c :: s) with ([] ++ c :: s).
        constructor; auto using nullable_matches_nil.
    + inversion H; subst. change (c :: s1 ++ s2) with ((c :: s1) ++ s2).
      constructor; auto.
  - inversion H; subst; [apply MAltL | apply MAltR]; auto.
  - inversion H; subst. change (c :: s1 ++ s2) with ((c :: s1) ++ s2).
    constructor; auto.
Qed.

Lemma deriv_complete c r s : matches r (c :: s) -> matches (deriv c r) s.
Proof.
  intros H. remember (c :: s) as w eqn:Ew. revert c s Ew.
  induction H; intros a t Ew; simpl; try discriminate.
  - injection Ew as -> <-. rewrite H. constructor.
  - injection Ew as -> <-. rewrite N.eqb_refl. constructor.
  - destruct s1 as [|b s1]; simpl in Ew.
    + subst s2. rewrite (matches_nil_nullable _ H). apply MAltR. auto.
    + injection Ew as -> <-.
      destruct (nullable r1); [apply MAltL|]; constructor; auto.
  - apply MAltL; auto.
  - apply MAltR; auto.
  - destruct s1 as [|b s1]; simpl in Ew.
    + exact (IHmatches2 _ _ Ew).
    + injection Ew as -> <-. constructor; auto.
Qed.

Lemma match_here_spec r s :
  match_here r s = true <-> exists m rest, s = m ++ rest /\ matches r m.
Proof.
  revert r. induction s as [|c s IH]; intros r; simpl.
  - rewrite orb_false_r. split.
    + intros H. exists [], []. auto using nullable_matches_nil.
    + intros (m & rest & E & H). symmetry in E.
      apply app_eq_nil in E as [-> _]. auto using matches_nil_nullable.
  - rewrite orb_true_iff, IH. split.
    + intros [H | (m & rest & -> & H)].
      * exists [], (c :: s). auto using nullable_matches_nil.
      * exists (c :: m), rest. auto using deriv_sound.
    + intros (m & rest & E & H). destruct m as [|d m]; simpl in E.
      * left. auto using matches_nil_nullable.
      * injection E as <- ->. right. exists m, rest. auto using deriv_complete.
Qed.

(** [test] finds a match exactly when some part of the string is a word of
    the pattern. *)
Lemma test_spec r s :
  test r s = true <->
  exists pre m post, s = pre ++ m ++ post /\ matches r m.
Proof.
  induction s as [|c s IH]; cbn [test]; rewrite orb_true_iff, match_here_spec.
  - split.
    + intros [(m & rest & E & H) | H]; [|discriminate].
      exists [], m, rest. auto.
    + intros (pre & m & post & E & H). left.
      destruct pre; [|discriminate]. exists m, post. auto.
  - rewrite IH. split.
    + intros [(m & rest & E & H) | (pre & m & post & -> & H)].
      * exists [], m, rest. auto.
      * exists (c :: pre), m, post. auto.
    + intros (pre & m & post & E & H). destruct pre as [|d pre]; simpl in E.
      * left. exists m, post. auto.
      * injection E as <- ->. right. exists pre, m, post. auto.
Qed.

Lemma matches_Cat_inv r1 r2 s :
  matches (Cat r1 r2) s ->
  exists s1 s2, s = s1 ++ s2 /\ matches r1 s1 /\ matches r2 s2.
Proof. intros H. inversion H; subst. eauto. Qed.

Lemma matches_Dot_inv s :
  matches Dot s -> exists c, s = [c] /\ line_terminator c = false.
Proof. intros H. inversion H; subst. eauto. Qed.

Lemma matches_Chr_inv c s : matches (Chr c) s -> s = [c].
Proof. intros H. inversion H; subst. reflexivity. Qed.

(** The words of [.*] and of [.+]. *)
Lemma star_dot_words s :
  matches (Star Dot) s <-> Forall (fun c => line_terminator c = false) s.
Proof.
  split.
  - intros H. remember (Star Dot) as r eqn:Er.
    induction H; try discriminate.
    + constructor.
    + injection Er as ->. apply matches_Dot_inv in H as (c & -> & Hc).
      simpl. constructor; auto.
  - induction 1 as [|c s Hc _ IH].
    + constructor.
    + change (c :: s) with ([c] ++ s). constructor; auto. now constructor.
Qed.

Lemma plus_dot_words s :
  matches (Plus Dot) s <->
  s <> [] /\ Forall (fun c => line_terminator c = false) s.
Proof.
  unfold Plus. split.
  - intros H. apply matches_Cat_inv in H as (s1 & s2 & -> & H1 & H2).
    apply matches_Dot_inv in H1 as (c & -> & Hc). simpl. split; [easy|].
    constructor; auto. now apply star_dot_words.
  - intros [Hne H]. destruct s as [|c s]; [easy|].
    inversion H; subst. change (c :: s) with ([c] ++ s).
    constructor; [now constructor | now apply star_dot_words].
Qed.

(** The words of [/.+@.+/]. *)
Lemma email_pattern_words m :
  matches Contact.email_pattern m <->
  exists l r, m = l ++ 64 :: r
    /\ l <> [] /\ Forall (fun c => line_terminator c = false) l
    /\ r <> [] /\ Forall (fun c => line_terminator c = false) r.
Proof.
  unfold Contact.email_pattern. split.
  - intros H. apply matches_Cat_inv in H as (l & w & -> & Hl & H).
    apply matches_Cat_inv in H as (a & r & -> & Ha & Hr).
    apply matches_Chr_inv in Ha as ->.
    apply plus_dot_words in Hl as [? ?]. apply plus_dot_words in Hr as [? ?].
    exists l, r. simpl. auto.
  - intros (l & r & -> & ? & ? & ? & ?).
    constructor; [now apply plus_dot_words|].
    change (64 :: r) with ([64] ++ r).
    constructor; [constructor | now apply plus_dot_words].
Qed.

(** The pattern is found exactly when an at sign stands between two code
    units that are not line terminators. *)
Lemma email_test_spec s :
  test Contact.email_pattern s = true <->
  exists pre c d post, s = pre ++ c :: 64 :: d :: post
    /\ line_terminator c = false /\ line_terminator d = false.
Proof.
  rewrite test_spec. split.
  - intros (pre & m & post & -> & H).
    apply email_pattern_words in H as (l & r & -> & Hl & Fl & Hr & Fr).
    destruct (exists_last Hl) as (l' & c & ->).
    destruct r as [|d r]; [easy|].
    exists (pre ++ l'), c, d, (r ++ post).
    split; [repeat (rewrite <- app_assoc; simpl); reflexivity|].
    apply Forall_app in Fl as [_ Fl]. inversion Fl; subst.
    inversion Fr; subst. auto.
  - intros (pre & c & d & post & -> & Hc & Hd).
    exists pre, [c; 64; d], post. split; [reflexivity|].
    apply email_pattern_words. exists [c], [d].
    repeat split; try easy; repeat constructor; auto.
Qed.

(** A string the pattern is found in has an at sign with a non-empty
    segment on each side. *)
Lemma email_test_at_sign s :
  test Contact.email_pattern s = true -> Contact.at_sign_between s.
Proof.
  intros H. apply email_test_spec in H as (pre & c & d & post & -> & _ & _).
  exists (pre ++ [c]), (d :: post). rewrite <- app_assoc. simpl.
  repeat split; [|easy]. destruct pre; easy.
Qed.

End RegExpFacts.

(** ** The contact form *)

Module ContactFacts.
Import Contact.

(** The guard fails as soon as one of its three conditions does. *)
Lemma invalid_form (f : Form) :
  name f = [] \/ ~ at_sign_between (email f) \/ (length (message f) <= 5)%nat ->
  valid f = false.
Proof.
  unfold valid. intros [H | [H | H]].
  - rewrite H. reflexivity.
  - destruct (RegExp.test email_pattern (email f)) eqn:E.
    + destruct H. now apply RegExpFacts.email_test_at_sign.
    + now rewrite andb_false_r.
  - replace (5 <? str_length (message f)) with false.
    + now rewrite andb_false_r.
    + symmetry. apply N.ltb_ge. unfold str_length. lia.
Qed.

(** Whatever the network answers, [submit] leaves the form as it is. *)
Lemma submit_keeps_form env {A} (st : State) (net : Request -> outcome A) :
  form (run (submit env st) net st).1 = form st.
Proof.
  unfold submit. simpl. destruct (valid (form st)); simpl; [|reflexivity].
  destruct (net _) as [res|]; [destruct (ok res)|]; reflexivity.
Qed.

(** What [submit] does on a form that passes the guard, from any status. *)
Lemma submit_valid_run env {A} (s : Status) (f : Form) (net : Request -> outcome A) :
  valid f = true ->
  let st := {| status := s; form := f |} in
  run (submit env st) net st =
    ({| status := settled (net (contact_request env f)); form := f |},
     [default_prevented;
      state_set {| status := loading; form := f |};
      request_sent (contact_request env f);
      state_set {| status := settled (net (contact_request env f)); form := f |}]).
Proof.
  intros Hv. unfold submit. simpl. rewrite Hv. simpl.
  destruct (net _) as [res|]; simpl; [destruct (ok res)|]; reflexivity.
Qed.

(** C1. On a form that passes the guard, [submit] called in the idle state
    sends exactly one request, a POST whose body is the serialised object
    of the three fields name, email and message; the status is loading
    while the request is in flight; it ends as success when the response
    is ok, and as error when the response is not ok or when the request
    throws. *)
Theorem submit_sends_one_post env {A} (f : Form) (net : Request -> outcome A) :
  valid f = true ->
  let st := {| status := idle; form := f |} in
  let req := contact_request env f in
  let r := run (submit env st) net st in
  requests r.2 = [req]
  /\ method req = POST
  /\ body req =
       Some (JSON.stringify_object
               [(js "name", name f); (js "email", email f); (js "message", message f)])
  /\ until_await (submit (A:=A) env st) st
       = ({| status := loading; form := f |}, Some req)
  /\ (forall res, net req = Resolved res -> ok res = true ->
        map status (states r.2) = [loading; success] /\ status r.1 = success)
  /\ (forall res, net req = Resolved res -> ok res = false ->
        map status (states r.2) = [loading; error] /\ status r.1 = error)
  /\ (net req = Rejected ->
        map status (states r.2) = [loading; error] /\ status r.1 = error).
Proof.
  intros Hv st req r.
  pose proof (submit_valid_run env idle f net Hv) as Hr. cbv zeta in Hr.
  subst r st req. rewrite Hr. cbn [fst snd].
  split; [reflexivity|]. split; [reflexivity|]. split; [reflexivity|].
  split; [unfold submit; simpl; now rewrite Hv|].
  split; [|split].
  - intros res E Hok. rewrite E. simpl. now rewrite Hok.
  - intros res E Hok. rewrite E. simpl. now rewrite Hok.
  - intros E. rewrite E. simpl. auto.
Qed.

Lemma submit_sends_one_post_witness :
  valid ann = true
  /\ map status
       (states (run (submit None {| status := idle; form := ann |})
                  (fun _ => Resolved {| ok := true; json := @None unit |})
                  {| status := idle; form := ann |}).2)
     = [loading; success].
Proof.
  split; [reflexivity|].
  pose proof (submit_sends_one_post None ann
                (fun _ => Resolved {| ok := true; json := @None unit |})
                eq_refl) as H.
  cbv zeta in H. destruct H as (_ & _ & _ & _ & H & _).
  exact (proj1 (H _ eq_refl eq_refl)).
Defined.

(** C2. When the name is empty, or the email has no at sign with a
    non-empty segment on each side, or the message has five code units or
    fewer, [submit] is a no-op: no request is sent, no setter is called, and
    the state, its status included, is the one it was called in. *)
Theorem submit_guard_noop env {A} (st : State) (net : Request -> outcome A) :
  name (form st) = []
  \/ ~ at_sign_between (email (form st))
  \/ (length (message (form st)) <= 5)%nat ->
  let r := run (submit env st) net st in
  r.1 = st /\ requests r.2 = [] /\ states r.2 = []
  /\ until_await (submit (A:=A) env st) st = (st, None).
Proof.
  intros H. apply invalid_form in H. unfold submit. simpl. rewrite H.
  simpl. auto.
Qed.

Lemma submit_guard_noop_witness :
  let st := {| status := idle;
               form := {| name := js ""; email := js "a@b"; message := js "hello!" |} |} in
  (run (submit None st) (fun _ => @Rejected unit) st).1 = st
  /\ requests (run (submit None st) (fun _ => @Rejected unit) st).2 = [].
Proof.
  intros st.
  pose proof (submit_guard_noop None st (fun _ => @Rejected unit)
                (or_introl eq_refl)) as H.
  cbv zeta in H. destruct H as (H1 & H2 & _). split; assumption.
Defined.

(** C10. While the status is loading the submit button is disabled,
    whatever the form holds, and activating it runs no handler at all: no
    request, no state change. *)
Theorem loading_disables_button env validates {A} (st : State)
    (net : Request -> outcome A) :
  status st = loading ->
  button_disabled st = true
  /\ run (press_submit env validates st) net st = (st, []).
Proof.
  intros H. unfold press_submit, button_disabled. rewrite H. simpl.
  rewrite orb_true_r. auto.
Qed.

Lemma loading_disables_button_witness :
  button_disabled {| status := loading; form := ann |} = true
  /\ run (press_submit None ConstraintValidation.html_validates
              {| status := loading; form := ann |})
       (fun _ => Resolved {| ok := true; json := @None unit |})
       {| status := loading; form := ann |}
     = ({| status := loading; form := ann |}, []).
Proof.
  exact (loading_disables_button None ConstraintValidation.html_validates
           {| status := loading; form := ann |}
           (fun _ => Resolved {| ok := true; json := @None unit |}) eq_refl).
Defined.

(** A form the browser finds invalid is not submitted, whatever the guard
    of [submit] says of it. *)
Lemma invalid_for_browser_not_submitted env validates {A} (st : State)
    (net : Request -> outcome A) :
  validates (form st) = false ->
  run (press_submit env validates st) net st = (st, []).
Proof.
  intros H. unfold press_submit. rewrite H.
  now destruct (button_disabled st).
Qed.

(** The email a b@c passes the guard of [submit], which only looks for an
    at sign between two characters, and not the check of the browser. *)
Lemma spaced_email_stopped_by_browser :
  valid ConstraintValidation.spaced = true
  /\ ConstraintValidation.html_validates ConstraintValidation.spaced = false
  /\ run (press_submit None ConstraintValidation.html_validates
             {| status := success; form := ConstraintValidation.spaced |})
         (fun _ => @Rejected unit)
         {| status := success; form := ConstraintValidation.spaced |}
     = ({| status := success; form := ConstraintValidation.spaced |}, []).
Proof. repeat split. Qed.

(** C6, as stated, fails: after a submission that ended in success, with a
    form that passes the guard and the check of the browser, the button is
    enabled and activating it again, with no field edited in between, sends
    a second request. *)
Lemma resubmit_needs_no_edit :
  let net := fun _ : Request => Resolved {| ok := true; json := @None unit |} in
  let press := press_submit None ConstraintValidation.html_validates in
  let st0 := {| status := idle; form := ann |} in
  let st1 := (run (press st0) net st0).1 in
  ConstraintValidation.html_validates ann = true
  /\ st1 = {| status := success; form := ann |}
  /\ button_disabled st1 = false
  /\ requests (run (press st1) net st1).2 <> [].
Proof. cbv zeta. repeat split. discriminate. Qed.

(** C6, amended. After a submission has ended in success or in error, with
    a form that still passes the guard and the constraint validation of the
    browser, the button is enabled and activating it, with or without an
    edit, runs [submit] again: one request with the form as it stands, the
    status loading while it is in flight.  No run of [submit] changes a
    field, so nothing is cleared on success; and an edit changes no status,
    so it is not what starts the machine again. *)
Theorem resubmit_after_terminal env validates {A} (s : Status) (f : Form)
    (net : Request -> outcome A) :
  valid f = true ->
  validates f = true ->
  s = success \/ s = error ->
  let st := {| status := s; form := f |} in
  let r := run (press_submit env validates st) net st in
  button_disabled st = false
  /\ until_await (press_submit (A:=A) env validates st) st
       = ({| status := loading; form := f |}, Some (contact_request env f))
  /\ requests r.2 = [contact_request env f]
  /\ r.1 = {| status := settled (net (contact_request env f)); form := f |}
  /\ (forall st' : State, form (run (submit env st') net st').1 = form st')
  /\ (forall v, status (edit_name v st) = s
               /\ status (edit_email v st) = s
               /\ status (edit_message v st) = s).
Proof.
  intros Hv Hb Hs st r.
  assert (Hd : button_disabled st = false).
  { unfold button_disabled, st. simpl. rewrite Hv. now destruct Hs as [-> | ->]. }
  assert (Hr := submit_valid_run env s f net Hv). fold st in Hr.
  unfold r, press_submit. rewrite Hd. change (form st) with f. rewrite Hb, Hr.
  repeat split.
  - unfold st, submit. simpl. now rewrite Hv.
  - intros st'. apply submit_keeps_form.
Qed.

Lemma resubmit_after_terminal_witness :
  valid ann = true
  /\ ConstraintValidation.html_validates ann = true
  /\ requests
       (run (press_submit None ConstraintValidation.html_validates
               {| status := success; form := ann |})
          (fun _ => @Rejected unit) {| status := success; form := ann |}).2
     = [contact_request None ann].
Proof.
  split; [reflexivity|]. split; [reflexivity|].
  pose proof (resubmit_after_terminal None ConstraintValidation.html_validates
                success ann (fun _ => @Rejected unit)
                eq_refl eq_refl (or_introl eq_refl)) as H.
  cbv zeta in H. destruct H as (_ & _ & H & _). exact H.
Defined.

End ContactFacts.

(** ** Strings, sets and first occurrences *)

Module SetFacts.

Lemma same_string_spec s t : same_string s t = true <-> s = t.
Proof.
  revert t. induction s as [|c s IH]; intros [|d t]; simpl; try easy.
  rewrite andb_true_iff, N.eqb_eq, IH. split.
  - now intros [-> ->].
  - intros [= -> ->]. auto.
Qed.

Lemma same_string_refl s : same_string s s = true.
Proof. now apply same_string_spec. Qed.

Lemma same_string_neq s t : same_string s t = false <-> s <> t.
Proof.
  rewrite <- same_string_spec. destruct (same_string s t); split; congruence.
Qed.

Lemma includes_spec xs x : includes xs x = true <-> x ∈ xs.
Proof.
  induction xs as [|y xs IH]; simpl.
  - split; [discriminate | intros H; inversion H].
  - rewrite orb_true_iff, same_string_spec, IH, elem_of_cons.
    split; intros [H|H]; auto.
Qed.

Lemma includes_false xs x : includes xs x = false <-> x ∉ xs.
Proof.
  rewrite <- includes_spec. destruct (includes xs x); split; congruence.
Qed.

Lemma new_Set_snoc xs x : new_Set (xs ++ [x]) = Set_add (new_Set xs) x.
Proof. unfold new_Set. now rewrite fold_left_app. Qed.

(** A set built from a list holds the elements of the list, no other. *)
Lemma new_Set_elem xs t : t ∈ new_Set xs <-> t ∈ xs.
Proof.
  induction xs as [|x xs IH] using rev_ind.
  - reflexivity.
  - rewrite new_Set_snoc, elem_of_app, list_elem_of_singleton, <- IH.
    unfold Set_add. destruct (includes (new_Set xs) x) eqn:E.
    + apply includes_spec in E. split; [auto|]. now intros [H | ->].
    + now rewrite elem_of_app, list_elem_of_singleton.
Qed.

(** It holds each of them once. *)
Lemma new_Set_NoDup xs : NoDup (new_Set xs).
Proof.
  induction xs as [|x xs IH] using rev_ind.
  - constructor.
  - rewrite new_Set_snoc. unfold Set_add.
    destruct (includes (new_Set xs) x) eqn:E; [assumption|].
    apply includes_false in E. apply NoDup_app. repeat split; auto.
    + intros y Hy ->%list_elem_of_singleton. contradiction.
    + apply NoDup_singleton.
Qed.

Lemma first_index_lt xs x i : first_index xs x = Some i -> (i < length xs)%nat.
Proof.
  revert i. induction xs as [|y xs IH]; simpl; intros i; [discriminate|].
  destruct (same_string y x).
  - intros [= <-]. lia.
  - destruct (first_index xs x) as [j|]; simpl; [|discriminate].
    intros [= <-]. specialize (IH j eq_refl). lia.
Qed.

Lemma first_index_elem xs x : x ∈ xs -> is_Some (first_index xs x).
Proof.
  induction xs as [|y xs IH]; simpl; intros H; [inversion H|].
  destruct (same_string y x) eqn:E; [eauto|].
  apply same_string_neq in E. apply elem_of_cons in H as [->|H]; [easy|].
  destruct (IH H) as [j ->]. simpl. eauto.
Qed.

Lemma first_index_app_l xs ys x :
  x ∈ xs -> first_index (xs ++ ys) x = first_index xs x.
Proof.
  induction xs as [|y xs IH]; simpl; intros H; [inversion H|].
  destruct (same_string y x) eqn:E; [reflexivity|].
  apply same_string_neq in E. apply elem_of_cons in H as [->|H]; [easy|].
  now rewrite IH.
Qed.

Lemma first_index_snoc_fresh xs x :
  x ∉ xs -> first_index (xs ++ [x]) x = Some (length xs).
Proof.
  induction xs as [|y xs IH]; simpl; intros H.
  - now rewrite same_string_refl.
  - apply not_elem_of_cons in H as [Hne H].
    assert (E : same_string y x = false) by (apply same_string_neq; congruence).
    rewrite E, IH by assumption. reflexivity.
Qed.

(** The place an index points at holds the element looked for, and no
    earlier place does. *)
Lemma first_index_spec xs x i :
  first_index xs x = Some i <->
  xs !! i = Some x /\ forall j, (j < i)%nat -> xs !! j <> Some x.
Proof.
  revert i. induction xs as [|y xs IH]; intros i; simpl.
  - split; [discriminate | now intros [? _]].
  - destruct (same_string y x) eqn:E.
    + apply same_string_spec in E as ->. split.
      * intros [= <-]. split; [reflexivity | lia].
      * intros [Hi Hlt]. destruct i as [|i]; [reflexivity|].
        destruct (Hlt 0%nat); [lia | reflexivity].
    + apply same_string_neq in E. split.
      * destruct (first_index xs x) as [k|] eqn:Ek; simpl; [|discriminate].
        intros [= <-]. destruct (proj1 (IH k) eq_refl) as [Hk Hlt].
        split; [assumption|].
        intros [|j] Hj; simpl; [congruence | apply Hlt; lia].
      * intros [Hi Hlt]. destruct i as [|i]; simpl in Hi; [congruence|].
        assert (Ei : first_index xs x = Some i).
        { apply IH. split; [assumption|]. intros j Hj. apply (Hlt (S j)). lia. }
        now rewrite Ei.
Qed.

(** The elements of the set stand in the order of their first occurrences
    in the list. *)
Lemma new_Set_order xs i j t u :
  new_Set xs !! i = Some t -> new_Set xs !! j = Some u -> (i < j)%nat ->
  exists a b, first_index xs t = Some a /\ first_index xs u = Some b /\ (a < b)%nat.
Proof.
  revert i j t u. induction xs as [|x xs IH] using rev_ind; intros i j t u.
  - intros H. inversion H.
  - rewrite new_Set_snoc. unfold Set_add.
    destruct (includes (new_Set xs) x) eqn:E.
    + intros Hi Hj Hlt. destruct (IH _ _ _ _ Hi Hj Hlt) as (a & b & Ha & Hb & Hab).
      exists a, b. rewrite !first_index_app_l; auto.
      * apply new_Set_elem. eapply list_elem_of_lookup_2; eauto.
      * apply new_Set_elem. eapply list_elem_of_lookup_2; eauto.
    + apply includes_false in E. intros Hi Hj Hlt.
      apply lookup_snoc_Some in Hj as [[Hlen Hj] | [Hlen ->]].
      * rewrite lookup_app_l in Hi by lia.
        destruct (IH _ _ _ _ Hi Hj Hlt) as (a & b & Ha & Hb & Hab).
        exists a, b. rewrite !first_index_app_l; auto.
        -- apply new_Set_elem. eapply list_elem_of_lookup_2; eauto.
        -- apply new_Set_elem. eapply list_elem_of_lookup_2; eauto.
      * rewrite lookup_app_l in Hi by lia.
        assert (Ht : t ∈ xs).
        { apply new_Set_elem. eapply list_elem_of_lookup_2; eauto. }
        destruct (first_index_elem _ _ Ht) as [a Ha].
        exists a, (length xs). rewrite first_index_app_l by assumption.
        rewrite first_index_snoc_fresh by (now rewrite <- new_Set_elem).
        repeat split; auto. eapply first_index_lt; eauto.
Qed.

End SetFacts.

(** ** The project gallery *)

Module ProjectsFacts.
Import Projects SetFacts.

Lemma all_tags_elem ps t : t ∈ all_tags ps <-> exists p, p ∈ ps /\ tagged t p.
Proof.
  unfold all_tags. rewrite list_elem_of_In, in_flat_map. split.
  - intros (p & Hp & Ht). exists p. rewrite list_elem_of_In. split; [assumption|].
    unfold tagged, tags_or_empty in *. destruct (tags p); [|destruct Ht].
    now apply list_elem_of_In.
  - intros (p & Hp & Ht). exists p. rewrite <- list_elem_of_In.
    split; [assumption|].
    unfold tagged, tags_or_empty in *. destruct (tags p); [|destruct Ht].
    now apply list_elem_of_In.
Qed.

Lemma has_tag_spec t p : has_tag t p = true <-> tagged t p.
Proof.
  unfold has_tag, tagged. destruct (tags p); [apply includes_spec | easy].
Qed.

(** The filter of the source keeps the projects that carry the tag. *)
Lemma filter_has_tag t ps : List.filter (has_tag t) ps = filter (tagged t) ps.
Proof.
  induction ps as [|p ps IH]; [reflexivity|].
  simpl. rewrite filter_cons, IH.
  destruct (has_tag t p) eqn:E; destruct (decide (tagged t p)) as [H|H];
    try reflexivity.
  - destruct H. now apply has_tag_spec.
  - apply has_tag_spec in H. congruence.
Qed.

(** C4. For every fetched array of projects the derived tag list is
    computed without error; it has no duplicate; it holds exactly the tags
    that occur in some project; its elements stand in the order of their
    first occurrences in the tags of the projects taken in fetched order;
    and the filter All gives back the fetched array itself. *)
Theorem tags_once_in_first_appearance_order (ps : list Project) :
  exists ts,
    tags_of (JArr ps) = Ok ts
    /\ NoDup ts
    /\ (forall t, t ∈ ts <-> exists p, p ∈ ps /\ tagged t p)
    /\ (forall i j t u,
          ts !! i = Some t -> ts !! j = Some u -> (i < j)%nat ->
          exists a b,
            first_index (all_tags ps) t = Some a
            /\ first_index (all_tags ps) u = Some b
            /\ (a < b)%nat)
    /\ filtered_of (JArr ps) (js "All") = Ok (JArr ps)
    /\ render {| projects := JArr ps; active := js "All";
                 loading := false; error := [] |}
       = Ok {| pills := js "All" :: ts; shown := Grid ps |}.
Proof.
  exists (new_Set (all_tags ps)). split; [reflexivity|].
  split; [apply new_Set_NoDup|].
  split; [intros t; now rewrite new_Set_elem, all_tags_elem|].
  split; [apply new_Set_order|]. split; reflexivity.
Qed.

Lemma tags_once_in_first_appearance_order_witness :
  tags_of (JArr gallery) = Ok [js "Rust"; js "Systems"; js "React"]
  /\ exists a b,
       first_index (all_tags gallery) (js "Rust") = Some a
       /\ first_index (all_tags gallery) (js "React") = Some b
       /\ (a < b)%nat.
Proof.
  destruct (tags_once_in_first_appearance_order gallery)
    as (ts & E & _ & _ & Hord & _ & _).
  split; [reflexivity|].
  assert (Ets : ts = [js "Rust"; js "Systems"; js "React"]).
  { assert (H : Ok ts = Ok [js "Rust"; js "Systems"; js "React"])
      by (rewrite <- E; reflexivity).
    now injection H. }
  apply (Hord 0%nat 2%nat); [now rewrite Ets | now rewrite Ets | lia].
Defined.

(** C5. For a tag other than All, the filter gives exactly the projects
    that carry the tag, in fetched order and as often as they were
    fetched: the test is membership of the tag in the tag list of the
    project, and a project with no tag list is never kept. *)
Theorem filter_keeps_tagged (ps : list Project) (t : jsstring) :
  t <> js "All" ->
  filtered_of (JArr ps) t = Ok (JArr (filter (tagged t) ps))
  /\ sublist (filter (tagged t) ps) ps
  /\ (forall p, p ∈ filter (tagged t) ps <->
                p ∈ ps /\ exists ts, tags p = Some ts /\ t ∈ ts)
  /\ (forall p, tags p = None -> p ∉ filter (tagged t) ps)
  /\ (exists ts,
        render {| projects := JArr ps; active := t;
                  loading := false; error := [] |}
        = Ok {| pills := js "All" :: ts; shown := Grid (filter (tagged t) ps) |}).
Proof.
  intros Hne.
  assert (E : filtered_of (JArr ps) t = Ok (JArr (filter (tagged t) ps))).
  { unfold filtered_of.
    replace (same_string t (js "All")) with false
      by (symmetry; now apply same_string_neq).
    now rewrite filter_has_tag. }
  split; [exact E|]. split; [apply sublist_filter|]. split; [|split].
  - intros p. rewrite list_elem_of_filter. unfold tagged. split.
    + intros [H Hp]. split; [assumption|].
      destruct (tags p) as [ts|]; [eauto | destruct H].
    + intros [Hp (ts & Ep & Ht)]. rewrite Ep. auto.
  - intros p Ep [H _]%list_elem_of_filter. unfold tagged in H.
    now rewrite Ep in H.
  - exists (new_Set (all_tags ps)). unfold render. cbn [projects active].
    rewrite E. reflexivity.
Qed.

Lemma filter_keeps_tagged_witness :
  js "Rust" <> js "All"
  /\ filtered_of (JArr gallery) (js "Rust")
     = Ok (JArr (filter (tagged (js "Rust")) gallery))
  /\ project "notes" None ∉ filter (tagged (js "Rust")) gallery.
Proof.
  assert (Hne : js "Rust" <> js "All") by discriminate.
  destruct (filter_keeps_tagged gallery (js "Rust") Hne)
    as (E & _ & _ & Hnone & _).
  split; [assumption|]. split; [assumption|]. now apply Hnone.
Defined.

(** X7. What [load] leaves when the request fails in the network or the body
    does not parse: the error line is shown. *)
Lemma load_failure_shows_error env (net : Request -> outcome (data Project)) :
  (forall req, net req = Rejected
     \/ exists b, net req = Resolved {| ok := b; json := None |}) ->
  render (run (load env) net initial).1
  = Ok {| pills := [js "All"];
          shown := ErrorText (js "Could not load projects") |}.
Proof.
  intros H. unfold load. cbn [run fst].
  destruct (H {| url := BACKEND env ++ js "/api/projects"; method := GET;
                 headers := []; body := None |}) as [-> | [b ->]]; reflexivity.
Qed.

(** C3, where the code departs from it.  [load] never reads [res.ok]: a
    response whose body parses is stored whatever its status, and no error
    is recorded.  On a response that is not ok and carries the object
    {"detail": "Internal Server Error"}, the next render throws, since an
    object has no [flatMap]; with no error boundary in the tree the page is
    unmounted.  On a response that is not ok and carries an empty array,
    the empty grid is shown and not the error line. *)
Theorem load_ignores_response_status env :
  (forall (b : bool) (d : data Project),
     (run (load env) (fun _ => Resolved {| ok := b; json := Some d |}) initial).1
     = {| projects := d; active := js "All"; loading := false; error := [] |})
  /\ render
       (run (load env)
          (fun _ => Resolved
             {| ok := false;
                json := Some (JObj [(js "detail", js "Internal Server Error")]) |})
          initial).1
     = Throw TypeError
  /\ render
       (run (load env)
          (fun _ => Resolved {| ok := false; json := Some (JArr []) |})
          initial).1
     = Ok {| pills := [js "All"]; shown := Grid [] |}.
Proof. repeat split. Qed.

End ProjectsFacts.

(** ** The posts list *)

Module BlogFacts.
Import Blog.

(** X25. When the posts request is rejected or its body does not parse, no
    setter is called, so the failure leaves no trace in the state; and
    then, as when the response carries an empty array, [Blog] renders
    [null]: no section, no message. *)
Theorem posts_hidden_when_empty_or_failed env
    (net : Request -> outcome (data Post)) :
  let req := {| url := BACKEND env ++ js "/api/posts"; method := GET;
                headers := []; body := None |} in
  let r := run (load env) net initial in
  (net req = Rejected \/ (exists b, net req = Resolved {| ok := b; json := None |}) ->
     r.1 = initial /\ states r.2 = [] /\ render r.1 = Ok None)
  /\ ((exists b, net req = Resolved {| ok := b; json := Some (JArr []) |}) ->
     render r.1 = Ok None).
Proof.
  intros req r. unfold r, load. fold req. cbn [run fst snd]. split.
  - intros [-> | [b ->]]; repeat split.
  - intros [b ->]. reflexivity.
Qed.

Lemma posts_hidden_when_empty_or_failed_witness :
  render (run (load None) (fun _ => Rejected) initial).1 = Ok None
  /\ render
       (run (load None)
          (fun _ => Resolved {| ok := true; json := Some (JArr []) |}) initial).1
     = Ok None.
Proof.
  split.
  - destruct (posts_hidden_when_empty_or_failed None (fun _ => Rejected))
      as [H _].
    destruct (H (or_introl eq_refl)) as (_ & _ & H'). exact H'.
  - destruct (posts_hidden_when_empty_or_failed None
                (fun _ => Resolved {| ok := true; json := Some (JArr []) |}))
      as [_ H].
    apply H. exists true. reflexivity.
Defined.

(** C9, where the code departs from it.  The promise chain never reads
    [r.ok]: a response that is not ok is a failed fetch, yet when its body
    parses the chain stores it like any other.  On a response that is not
    ok and carries [null] the next render throws on [posts.length]; on one
    that carries a JSON string it throws on [posts.map], a string having a
    length and no [map]; with no error boundary in the tree the page is
    unmounted.  On one that carries an array of one post the section is
    rendered with that post. *)
Theorem posts_load_ignores_response_status env :
  (forall (b : bool) (d : data Post),
     (run (load env) (fun _ => Resolved {| ok := b; json := Some d |}) initial).1
     = {| posts := d |})
  /\ render
       (run (load env)
          (fun _ => Resolved {| ok := false; json := Some JNull |}) initial).1
     = Throw TypeError
  /\ render
       (run (load env)
          (fun _ => Resolved
             {| ok := false; json := Some (JStr (js "Internal Server Error")) |})
          initial).1
     = Throw TypeError
  /\ render
       (run (load env)
          (fun _ => Resolved {| ok := false; json := Some (JArr [hello]) |})
          initial).1
     = Ok (Some [hello]).
Proof. repeat split. Qed.

End BlogFacts.

(** ** The theme *)

Module ThemeFacts.
Import Theme SetFacts.

(** The theme button always changes the theme, to light from dark and to
    dark from anything else. *)
Lemma toggle_theme_changes a :
  toggle_theme a =
    let v := if same_string (theme a) (js "dark") then js "light" else js "dark" in
    {| theme := v; browser := theme_effect v (browser a) |}.
Proof.
  unfold toggle_theme, setTheme.
  destruct (same_string (theme a) (js "dark")) eqn:E.
  - apply same_string_spec in E. rewrite E. reflexivity.
  - replace (same_string (js "dark") (theme a)) with false; [reflexivity|].
    symmetry. apply same_string_neq. apply same_string_neq in E. congruence.
Qed.

(** The test [if (stored)] is one of truthiness: a key that holds the empty
    string, which the page itself never writes, counts as no stored theme,
    and the initial theme is taken from the ambient colour scheme. *)
Lemma empty_stored_theme_not_returned :
  let b := {| localStorage := {[ js "theme" := [] ]};
              prefers_dark := true; classList := ∅ |} in
  localStorage b !! js "theme" = Some []
  /\ initial_theme b = js "dark"
  /\ initial_theme b <> [].
Proof.
  cbv zeta. unfold initial_theme. cbn [localStorage prefers_dark].
  rewrite lookup_singleton_eq. repeat split. discriminate.
Qed.

(** C7. The theme button writes the new theme, light or dark, to the store
    under the key theme.  A first render that finds a theme stored under
    that key, light, dark or any other non-empty string, starts with it,
    whatever the ambient colour scheme; so the theme written by the button
    is the one the next load starts with.  With no value stored the first
    render starts with dark when the ambient scheme is dark and with light
    otherwise. *)
Theorem theme_round_trip (a : AppState) :
  let a' := toggle_theme a in
  (theme a' = js "light" \/ theme a' = js "dark")
  /\ localStorage (browser a') !! js "theme" = Some (theme a')
  /\ (forall store ambient classes v,
        store !! js "theme" = Some v -> v <> [] ->
        initial_theme {| localStorage := store; prefers_dark := ambient;
                         classList := classes |} = v)
  /\ (forall ambient classes,
        initial_theme {| localStorage := localStorage (browser a');
                         prefers_dark := ambient; classList := classes |}
        = theme a')
  /\ (forall store ambient classes,
        store !! js "theme" = None ->
        initial_theme {| localStorage := store; prefers_dark := ambient;
                         classList := classes |}
        = if ambient then js "dark" else js "light").
Proof.
  intros a'. unfold a'. rewrite toggle_theme_changes. cbv zeta.
  cbn [theme browser theme_effect localStorage].
  assert (Hstored : forall store ambient classes v,
            store !! js "theme" = Some v -> v <> [] ->
            initial_theme {| localStorage := store; prefers_dark := ambient;
                             classList := classes |} = v).
  { intros store ambient classes v E Hne. unfold initial_theme.
    cbn [localStorage prefers_dark]. rewrite E. now destruct v. }
  split; [destruct (same_string (theme a) (js "dark")); auto|].
  split; [apply lookup_insert_eq|].
  split; [exact Hstored|].
  split.
  - intros ambient classes. apply Hstored; [apply lookup_insert_eq|].
    now destruct (same_string (theme a) (js "dark")).
  - intros store ambient classes E. unfold initial_theme.
    cbn [localStorage prefers_dark]. now rewrite E.
Qed.

Lemma theme_round_trip_witness :
  initial_theme {| localStorage := {[ js "theme" := js "dark" ]};
                   prefers_dark := false; classList := ∅ |} = js "dark"
  /\ initial_theme {| localStorage := ∅; prefers_dark := false;
                      classList := ∅ |} = js "light".
Proof.
  destruct (theme_round_trip {| theme := js "light";
                                browser := {| localStorage := ∅;
                                              prefers_dark := false;
                                              classList := ∅ |} |})
    as (_ & _ & Hstored & _ & Hnone).
  split.
  - apply Hstored; [apply lookup_singleton_eq | discriminate].
  - apply Hnone. apply lookup_empty.
Defined.

(** The effect of [App] runs last and adds the marker. *)
Lemma mount_has_dark_marker (b : Browser) :
  js "dark" ∈ classList (browser (mount b)).
Proof.
  unfold mount, App_effect. cbn [browser classList].
  apply elem_of_union_r, elem_of_singleton. reflexivity.
Qed.

(** C8. After the first render and its effects the marker dark is on the
    document root, whatever the store, the ambient colour scheme and the
    classes of the root were, and whatever theme the hook started with:
    the theme itself is the initial one, light included. *)
Theorem mount_forces_dark (b : Browser) :
  js "dark" ∈ classList (browser (mount b))
  /\ theme (mount b) = initial_theme b.
Proof. split; [apply mount_has_dark_marker | reflexivity]. Qed.

(** With light stored, the theme is light and the marker is there. *)
Lemma mount_light_has_dark_marker :
  let b := {| localStorage := {[ js "theme" := js "light" ]};
              prefers_dark := false; classList := ∅ |} in
  theme (mount b) = js "light" /\ js "dark" ∈ classList (browser (mount b)).
Proof.
  cbv zeta. split; [|apply mount_has_dark_marker].
  unfold mount, initial_theme. cbn [theme localStorage prefers_dark].
  now rewrite lookup_singleton_eq.
Qed.

End ThemeFacts.

(** ** More on the theme *)

Module ThemeMore.
Import Theme SetFacts.

Lemma initial_theme_not_empty (b : Browser) : initial_theme b <> [].
Proof.
  unfold initial_theme.
  destruct (localStorage b !! js "theme") as [[|c v]|]; simpl;
    destruct (prefers_dark b); discriminate.
Qed.

(** X17. The first render writes the theme it starts with to the store, so the
    theme of a first load is kept: a later load starts with it whatever the
    ambient colour scheme has become, also when it had been taken from the
    ambient scheme. *)
Theorem first_theme_is_kept (b : Browser) :
  localStorage (browser (mount b)) !! js "theme" = Some (initial_theme b)
  /\ forall ambient classes,
       initial_theme {| localStorage := localStorage (browser (mount b));
                        prefers_dark := ambient; classList := classes |}
       = initial_theme b.
Proof.
  assert (E : localStorage (browser (mount b)) !! js "theme"
              = Some (initial_theme b)).
  { unfold mount, App_effect, theme_effect. cbn [browser localStorage].
    apply lookup_insert_eq. }
  split; [exact E|]. intros ambient classes.
  unfold initial_theme at 1. cbn [localStorage prefers_dark]. rewrite E.
  pose proof (initial_theme_not_empty b) as Hne.
  now destruct (initial_theme b).
Qed.

(** X24. The theme a first render starts with, in every case: the stored
    value when the key theme holds a non-empty string; otherwise, the key
    being absent or holding the empty string, dark when the ambient colour
    scheme is dark and light when it is not.  It is never the empty
    string. *)
Theorem initial_theme_cases (b : Browser) :
  initial_theme b <> []
  /\ (forall v, localStorage b !! js "theme" = Some v -> v <> [] ->
        initial_theme b = v)
  /\ (localStorage b !! js "theme" = None
      \/ localStorage b !! js "theme" = Some [] ->
      initial_theme b = if prefers_dark b then js "dark" else js "light").
Proof.
  split; [apply initial_theme_not_empty|]. unfold initial_theme. split.
  - intros v -> Hv. now destruct v.
  - intros [-> | ->]; reflexivity.
Qed.

Lemma initial_theme_cases_witness :
  initial_theme {| localStorage := {[ js "theme" := [] ]};
                   prefers_dark := false; classList := ∅ |}
  = js "light".
Proof.
  destruct (initial_theme_cases
              {| localStorage := {[ js "theme" := [] ]};
                 prefers_dark := false; classList := ∅ |}) as (_ & _ & H).
  apply H. right. apply lookup_singleton_eq.
Defined.

(** What one click on the theme button does to the browser. *)
Lemma toggle_theme_browser a :
  browser (toggle_theme a)
  = theme_effect (theme (toggle_theme a)) (browser a).
Proof. now rewrite ThemeFacts.toggle_theme_changes. Qed.

Lemma theme_effect_marker v b :
  js "dark" ∈ classList (theme_effect v b) <-> v = js "dark".
Proof.
  unfold theme_effect. cbn [classList].
  destruct (same_string v (js "dark")) eqn:E.
  - apply same_string_spec in E. split; [auto|]. intros _.
    apply elem_of_union_r, elem_of_singleton. reflexivity.
  - apply same_string_neq in E. split; [|easy].
    intros [_ H]%elem_of_difference. destruct H. now apply elem_of_singleton.
Qed.

(** X18. After one click or more on the theme button, from any state of the
    page, the marker dark is on the document root exactly when the theme is
    dark, the store holds the theme, and the theme is light or dark. *)
Theorem marker_follows_theme (a : AppState) (n : nat) :
  let a' := Nat.iter (S n) toggle_theme a in
  (js "dark" ∈ classList (browser a') <-> theme a' = js "dark")
  /\ localStorage (browser a') !! js "theme" = Some (theme a')
  /\ (theme a' = js "light" \/ theme a' = js "dark").
Proof.
  change (Nat.iter (S n) toggle_theme a)
    with (toggle_theme (Nat.iter n toggle_theme a)).
  generalize (Nat.iter n toggle_theme a). intros a0.
  cbv zeta. rewrite toggle_theme_browser. split; [apply theme_effect_marker|].
  split.
  - unfold theme_effect. cbn [localStorage]. apply lookup_insert_eq.
  - rewrite ThemeFacts.toggle_theme_changes. cbn [theme].
    destruct (same_string (theme a0) (js "dark")); auto.
Qed.

(** X19. The theme button touches nothing but the key theme of the store and the
    class dark of the root: every other key and every other class is as it
    was, after any number of clicks. *)
Theorem toggle_leaves_the_rest (a : AppState) (n : nat) :
  let a' := Nat.iter n toggle_theme a in
  (forall k, k <> js "theme" ->
     localStorage (browser a') !! k = localStorage (browser a) !! k)
  /\ (forall c, c <> js "dark" ->
        (c ∈ classList (browser a') <-> c ∈ classList (browser a)))
  /\ prefers_dark (browser a') = prefers_dark (browser a).
Proof.
  induction n as [|n IH]; [easy|].
  change (Nat.iter (S n) toggle_theme a)
    with (toggle_theme (Nat.iter n toggle_theme a)).
  cbv zeta in *. destruct IH as (IHk & IHc & IHp).
  set (a0 := Nat.iter n toggle_theme a) in *.
  rewrite toggle_theme_browser. unfold theme_effect.
  cbn [localStorage classList prefers_dark]. split; [|split].
  - intros k Hk. rewrite lookup_insert_ne by congruence. now apply IHk.
  - intros c Hc. rewrite <- (IHc c Hc).
    destruct (same_string _ _).
    + rewrite elem_of_union, elem_of_singleton. tauto.
    + rewrite elem_of_difference, elem_of_singleton. tauto.
  - exact IHp.
Qed.

(** X20. When the page starts with a theme other than dark, the marker dark is
    on the root all the same; the first click on the theme button makes the
    theme dark and so leaves the marker where it is; the second click makes
    the theme light and removes the marker. *)
Theorem light_needs_two_clicks (b : Browser) :
  initial_theme b <> js "dark" ->
  let a0 := mount b in
  let a1 := toggle_theme a0 in
  let a2 := toggle_theme a1 in
  js "dark" ∈ classList (browser a0)
  /\ theme a1 = js "dark" /\ js "dark" ∈ classList (browser a1)
  /\ theme a2 = js "light" /\ js "dark" ∉ classList (browser a2).
Proof.
  intros Hne a0 a1 a2.
  assert (E1 : theme a1 = js "dark").
  { unfold a1. rewrite ThemeFacts.toggle_theme_changes. cbn [theme].
    replace (same_string (theme a0) (js "dark")) with false; [reflexivity|].
    symmetry. now apply same_string_neq. }
  assert (E2 : theme a2 = js "light").
  { unfold a2. rewrite ThemeFacts.toggle_theme_changes. cbn [theme].
    now rewrite E1. }
  split; [apply ThemeFacts.mount_has_dark_marker|].
  split; [exact E1|]. split.
  - unfold a1. rewrite toggle_theme_browser. apply theme_effect_marker. exact E1.
  - split; [exact E2|]. unfold a2. rewrite toggle_theme_browser.
    rewrite theme_effect_marker. fold a2. rewrite E2. discriminate.
Qed.

Lemma light_needs_two_clicks_witness :
  let b := {| localStorage := {[ js "theme" := js "light" ]};
              prefers_dark := false; classList := ∅ |} in
  initial_theme b <> js "dark"
  /\ js "dark" ∈ classList (browser (toggle_theme (mount b)))
  /\ js "dark" ∉ classList (browser (toggle_theme (toggle_theme (mount b)))).
Proof.
  intros b.
  assert (Hne : initial_theme b <> js "dark").
  { unfold initial_theme, b. cbn [localStorage prefers_dark].
    rewrite lookup_singleton_eq. discriminate. }
  pose proof (light_needs_two_clicks b Hne) as H. cbv zeta in H.
  destruct H as (_ & _ & H1 & _ & H2). auto.
Defined.

(** X21. Two clicks on the theme button give back a dark theme, and give light
    from any other theme: a theme that is neither light nor dark, as a
    foreign value in the store makes it, is never seen again. *)
Theorem two_clicks (a : AppState) :
  theme (toggle_theme (toggle_theme a))
  = if same_string (theme a) (js "dark") then js "dark" else js "light".
Proof.
  rewrite !ThemeFacts.toggle_theme_changes. cbn [theme].
  now destruct (same_string (theme a) (js "dark")).
Qed.

End ThemeMore.

(** ** The navigation bar *)

Module NavbarFacts.
Import Navbar.

Lemma gt_spec a b : gt a b = true <-> (b < a)%Q.
Proof.
  unfold gt. rewrite negb_true_iff. split.
  - intros H. apply Qnot_le_lt. intros Hle.
    apply Qle_bool_iff in Hle. congruence.
  - intros H. destruct (Qle_bool a b) eqn:E; [|reflexivity].
    apply Qle_bool_iff in E. exfalso. now apply (Qlt_not_le b a).
Qed.

Lemma after_snoc y samples curr :
  after y (samples ++ [curr]) = onScroll (after y samples) curr.
Proof. unfold after. now rewrite fold_left_app. Qed.

Lemma after_last y samples : last (after y samples) = List.last samples y.
Proof.
  induction samples as [|curr samples IH] using rev_ind; [reflexivity|].
  rewrite after_snoc, last_last. reflexivity.
Qed.

(** X22. After a scroll event the bar is hidden exactly when the position is
    above 64 and strictly above the position of the event before it, or of
    the first render when there was none; the events before that do not
    matter. *)
Theorem hidden_after_scroll (y : Q) (samples : list Q) (curr : Q) :
  hidden (after y (samples ++ [curr])) = true
  <-> (List.last samples y < curr)%Q /\ (64 # 1 < curr)%Q.
Proof.
  rewrite after_snoc. unfold onScroll. cbn [hidden].
  rewrite andb_true_iff, !gt_spec, after_last. reflexivity.
Qed.

Lemma hidden_after_scroll_witness :
  hidden (after (0 # 1) [10 # 1; 100 # 1]) = true
  /\ hidden (after (0 # 1) [10 # 1; 100 # 1; 90 # 1]) = false.
Proof.
  split.
  - apply (hidden_after_scroll (0 # 1) [10 # 1] (100 # 1)). split; reflexivity.
  - destruct (hidden (after (0 # 1) [10 # 1; 100 # 1; 90 # 1])) eqn:E;
      [|reflexivity].
    apply (hidden_after_scroll (0 # 1) [10 # 1; 100 # 1] (90 # 1)) in E.
    destruct E as [E _]. discriminate E.
Defined.

End NavbarFacts.

(** ** The key toggle *)

Module KeyToggleFacts.
Import KeyToggle.

(** X23. The overlay is on exactly when the key of the hook, compared in lower
    case, has been pressed an odd number of times; other keys do not
    count. *)
Theorem on_iff_odd (toLowerCase : jsstring -> jsstring)
    (key : jsstring) (presses : list jsstring) :
  after toLowerCase key presses
  = Nat.odd (length (filter (fun p => toLowerCase p = toLowerCase key) presses)).
Proof.
  induction presses as [|p presses IH] using rev_ind; [reflexivity|].
  unfold after in *. rewrite fold_left_app. cbn [fold_left]. rewrite IH.
  rewrite filter_app, length_app, filter_cons, filter_nil. unfold handler.
  destruct (same_string (toLowerCase p) (toLowerCase key)) eqn:E.
  - apply SetFacts.same_string_spec in E. rewrite decide_True by assumption.
    cbn [length]. rewrite Nat.add_1_r, Nat.odd_succ, <- Nat.negb_odd. reflexivity.
  - apply SetFacts.same_string_neq in E. rewrite decide_False by assumption.
    cbn [length]. now rewrite Nat.add_0_r.
Qed.

End KeyToggleFacts.

(** ** The cards *)

Module ProjectCardFacts.
Import Projects ProjectCard.

(** X13. A card always links somewhere.  Its link is the demo address when that
    is a non-empty string; otherwise the repository address when that is a
    non-empty string; otherwise the anchor of the case study, made of the
    slug.  A missing address and an empty one are treated alike.  The card
    shows the first five labels of the stack at most, in order. *)
Theorem card_link_and_labels (p : Project) :
  link (render p) <> []
  /\ (forall u, demo_url p = Some u -> u <> [] -> link (render p) = u)
  /\ (demo_url p = None \/ demo_url p = Some [] ->
      forall u, github_url p = Some u -> u <> [] -> link (render p) = u)
  /\ (demo_url p = None \/ demo_url p = Some [] ->
      github_url p = None \/ github_url p = Some [] ->
      link (render p) = js "#case-" ++ slug p)
  /\ (length (chips (render p)) <= 5)%nat
  /\ (forall ls, stack p = Some ls ->
        chips (render p) `prefix_of` ls
        /\ ((length ls <= 5)%nat -> chips (render p) = ls)).
Proof.
  cbn [render link chips]. unfold href, labels, or_else.
  split; [|split; [|split; [|split; [|split]]]].
  - destruct (demo_url p) as [[|c u]|]; destruct (github_url p) as [[|d w]|];
      simpl; discriminate.
  - intros u -> Hu. now destruct u.
  - intros [-> | ->] u -> Hu; now destruct u.
  - intros [-> | ->] [-> | ->]; reflexivity.
  - destruct (stack p) as [ls|]; simpl; [|lia]. rewrite length_take. lia.
  - intros ls ->. split; [apply prefix_take|]. intros H. now apply take_ge.
Qed.

Lemma card_link_and_labels_witness :
  link (render (project "kv" None)) = js "#case-kv".
Proof.
  destruct (card_link_and_labels (project "kv" None)) as (_ & _ & _ & H & _).
  apply H; left; reflexivity.
Defined.

End ProjectCardFacts.

(** ** More on the contact form *)

Module ContactMore.
Import Contact ContactPage.

(** X1. The guard, exactly: a non-empty name, an email in which an at sign
    stands between two code units that are not line terminators, and a
    message of six code units or more. *)
Theorem valid_exactly (f : Form) :
  valid f = true <->
  name f <> []
  /\ (exists pre c d post, email f = pre ++ c :: 64 :: d :: post
        /\ RegExp.line_terminator c = false /\ RegExp.line_terminator d = false)
  /\ (5 < length (message f))%nat.
Proof.
  unfold valid. rewrite !andb_true_iff, RegExpFacts.email_test_spec, N.ltb_lt.
  unfold str_length.
  assert (Hn : truthy_string (name f) = true <-> name f <> [])
    by (destruct (name f); simpl; split; congruence).
  rewrite Hn. split.
  - intros [[? ?] ?]. repeat split; auto. lia.
  - intros (? & ? & ?). repeat split; auto. lia.
Qed.

Lemma valid_exactly_witness :
  valid {| name := js "Ann"; email := js "a@b"; message := js "hello!" |} = true.
Proof.
  apply valid_exactly. cbn [name email message]. split; [discriminate|]. split.
  - exists [], 97, 98, []. repeat split.
  - simpl. lia.
Defined.

(** X3. [submit] itself never looks at the status: called with a form that
    passes the guard it sends its request from any status, loading
    included, and the status it leaves is the one of the response.  Only
    the disabled button stands between a request in flight and a second
    one. *)
Theorem submit_ignores_status env {A} (s : Status) (f : Form)
    (net : Request -> outcome A) :
  valid f = true ->
  let st := {| status := s; form := f |} in
  requests (run (submit env st) net st).2 = [contact_request env f]
  /\ (run (submit env st) net st).1
     = {| status := settled (net (contact_request env f)); form := f |}.
Proof.
  intros Hv st. unfold st.
  rewrite (ContactFacts.submit_valid_run env s f net Hv). split; reflexivity.
Qed.

Lemma submit_ignores_status_witness :
  requests
    (run (submit None {| status := loading; form := ann |})
       (fun _ => @Rejected unit) {| status := loading; form := ann |}).2
  = [contact_request None ann].
Proof.
  exact (proj1 (submit_ignores_status None loading ann
                  (fun _ => @Rejected unit) eq_refl)).
Defined.

(** *** What holds of the form after any sequence of inputs *)

Section Invariant.

Variable env : option jsstring.
Variable validates : Contact.Form -> bool.
Context {A : Type}.

Lemma form_inv_mounted : inv env (@mounted A).
Proof.
  split; [|split].
  - intros k H. inversion H.
  - left. split; [reflexivity | discriminate].
  - intros req H. inversion H.
Qed.

Lemma form_inv_edit (g : State -> State) (c : Config State A) :
  (forall st, status (g st) = status st) ->
  inv env c -> inv env (dispatch (SetState g Return) c).
Proof.
  intros Hg (Hk & Hs & Hr). unfold dispatch. cbn [suspend fst snd].
  split; [|split]; cbn [state in_flight sent]; auto.
  rewrite Hg. exact Hs.
Qed.

Lemma form_inv_return (c : Config State A) :
  inv env c -> inv env (dispatch Return c).
Proof. intros H. unfold dispatch. cbn [suspend fst snd]. now destruct c. Qed.

Lemma form_inv_press (c : Config State A) :
  inv env c -> inv env (dispatch (press_submit env validates (state c)) c).
Proof.
  intros H. unfold press_submit.
  destruct (button_disabled (state c)) eqn:Hd; [now apply form_inv_return|].
  destruct (validates (form (state c))); [|now apply form_inv_return].
  destruct H as (Hk & Hs & Hr). unfold button_disabled in Hd.
  apply orb_false_iff in Hd as [Hv Hl]. apply negb_false_iff in Hv.
  destruct Hs as [[Hnil Hs] | (k & Hin & Hs)];
    [|rewrite Hs in Hl; discriminate].
  unfold submit, dispatch. rewrite Hv. cbn [negb suspend fst snd].
  split; [|split]; cbn [state in_flight sent].
  - rewrite Hnil. intros k ->%list_elem_of_singleton o st.
    destruct o as [res|]; cbn [settled]; [destruct (ok res)|]; reflexivity.
  - right. rewrite Hnil. eexists. split; reflexivity.
  - intros req [H | ->%list_elem_of_singleton]%elem_of_app; [auto|].
    exists (form (state c)). auto.
Qed.

Lemma form_inv_settle n o (c : Config State A) : inv env c -> inv env (settle n o c).
Proof.
  intros (Hk & Hs & Hr). unfold settle.
  destruct (in_flight c !! n) as [k|] eqn:E; [|now split].
  destruct Hs as [[Hnil Hs] | (k' & Hin & Hs)].
  - rewrite Hnil in E. discriminate.
  - rewrite Hin in E. destruct n as [|n]; [|discriminate].
    injection E as <-. unfold dispatch. cbn [state in_flight sent].
    rewrite (Hk k') by (rewrite Hin; apply list_elem_of_here).
    cbn [fst snd]. rewrite Hin. cbn [delete list_delete].
    split; [|split]; cbn [state in_flight sent]; auto.
    + intros k H. inversion H.
    + left. split; [reflexivity|]. cbn [setStatus status].
      destruct o as [res|]; cbn [settled]; [destruct (ok res)|]; discriminate.
Qed.

Lemma form_inv_step (c : Config State A) i : inv env c -> inv env (step env validates c i).
Proof.
  intros H. destruct i; cbn [step].
  - now apply form_inv_edit.
  - now apply form_inv_edit.
  - now apply form_inv_edit.
  - now apply form_inv_press.
  - now apply form_inv_settle.
Qed.

Lemma form_inv_fold inputs (c : Config State A) : inv env c -> inv env (fold_left (step env validates) inputs c).
Proof.
  revert c. induction inputs as [|i inputs IH]; intros c H; [exact H|].
  cbn [fold_left]. apply IH. now apply form_inv_step.
Qed.

Lemma form_inv_after (inputs : list (input A)) : inv env (after env validates inputs).
Proof. apply form_inv_fold, form_inv_mounted. Qed.

(** Under the invariant no input but an edit changes a field. *)
Lemma step_form (c : Config State A) i :
  inv env c -> is_edit i = false ->
  form (state (step env validates c i)) = form (state c).
Proof.
  intros (Hk & Hs & Hr) Hi. destruct i; try discriminate; cbn [step].
  - unfold dispatch, press_submit, submit.
    destruct (button_disabled (state c)); cbn [suspend fst snd]; [reflexivity|].
    destruct (validates (form (state c))); cbn [suspend fst snd]; [|reflexivity].
    destruct (valid (form (state c))); reflexivity.
  - unfold settle. destruct (in_flight c !! n) as [k|] eqn:E; [|reflexivity].
    unfold dispatch. cbn [state]. rewrite (Hk k).
    + reflexivity.
    + eapply list_elem_of_lookup_2. exact E.
Qed.

Lemma edits_decide_form inputs (c1 c2 : Config State A) :
  inv env c1 -> form (state c1) = form (state c2) ->
  form (state (fold_left (step env validates) inputs c1))
  = form (state (fold_left (step env validates) (List.filter is_edit inputs) c2)).
Proof.
  revert c1 c2. induction inputs as [|i inputs IH]; intros c1 c2 H1 E;
    [exact E|].
  cbn [fold_left List.filter]. destruct (is_edit i) eqn:Ei.
  - cbn [fold_left]. apply IH; [now apply form_inv_step|].
    destruct i; try discriminate; cbn [step]; unfold dispatch;
      cbn [suspend fst snd state]; unfold edit_name, edit_email, edit_message,
      setForm; cbn [form]; now rewrite E.
  - apply IH; [now apply form_inv_step|].
    rewrite (step_form c1 i H1 Ei). exact E.
Qed.

End Invariant.

(** X4. Whatever the user and the network do, in whatever order, the form has
    at most one request in flight, and it has one exactly when its status
    is loading. *)
Theorem one_request_in_flight env validates {A} (inputs : list (input A)) :
  let c := after env validates inputs in
  (length (in_flight c) <= 1)%nat
  /\ (status (state c) = loading <-> length (in_flight c) = 1%nat).
Proof.
  destruct (form_inv_after env validates inputs) as (_ & [[E Hs] | (k & E & Hs)] & _);
    cbv zeta; rewrite E; cbn [length]; split; try lia; split; try lia;
    congruence.
Qed.

Lemma one_request_in_flight_witness :
  let c := after None ConstraintValidation.html_validates
             [EditName (js "Ann"); EditEmail (js "ann@x.io");
                       EditMessage (js "Hello there"); Press; Press;
                       EditName (js "Bob"); @Press unit] in
  length (in_flight c) = 1%nat /\ length (sent c) = 1%nat.
Proof.
  intros c. split; [|reflexivity].
  apply (one_request_in_flight None ConstraintValidation.html_validates
           [EditName (js "Ann"); EditEmail (js "ann@x.io");
            EditMessage (js "Hello there"); Press; Press;
            EditName (js "Bob"); @Press unit]).
  reflexivity.
Defined.

(** X5. No form that fails the guard is ever sent: every request of the contact
    form, after any sequence of inputs, is the POST of a form that passed
    the guard when the button was pressed. *)
Theorem only_valid_forms_sent env validates {A} (inputs : list (input A)) (req : Request) :
  req ∈ sent (after env validates inputs) ->
  exists f, valid f = true /\ req = contact_request env f.
Proof.
  destruct (form_inv_after env validates inputs) as (_ & _ & H). apply H.
Qed.

Lemma only_valid_forms_sent_witness :
  exists f,
    valid f = true
    /\ contact_request None ann = contact_request None f.
Proof.
  apply (only_valid_forms_sent None ConstraintValidation.html_validates
           [EditName (js "Ann"); EditEmail (js "ann@x.io");
            EditMessage (js "Hello there"); @Press unit]).
  apply list_elem_of_here.
Defined.

(** X6. What the user typed is never altered behind their back: after any
    sequence of inputs the three fields are what the edits alone, in their
    order, have made them; pressing the button and the settling of a
    request, success included, change none. *)
Theorem fields_follow_edits env validates {A} (inputs : list (input A)) :
  form (state (after env validates inputs))
  = form (state (after env validates (List.filter is_edit inputs))).
Proof.
  unfold after. apply edits_decide_form; [apply form_inv_mounted | reflexivity].
Qed.

End ContactMore.

(** ** The payload of the contact request can be read back *)

Module JSONFacts.
Import JSON JSONRead.

Lemma hex_value_digit n : n < 16 -> hex_value (hex_digit n) = Some n.
Proof.
  intros H. unfold hex_digit, hex_value.
  destruct (N.ltb_spec n 10).
  - replace ((48 <=? 48 + n) && (48 + n <=? 57)) with true; [f_equal; lia|].
    symmetry. apply andb_true_iff. split; apply N.leb_le; lia.
  - replace ((48 <=? 87 + n) && (87 + n <=? 57)) with false.
    + replace ((97 <=? 87 + n) && (87 + n <=? 102)) with true; [f_equal; lia|].
      symmetry. apply andb_true_iff. split; apply N.leb_le; lia.
    + symmetry. apply andb_false_iff. right. apply N.leb_gt. lia.
Qed.

Lemma hex_digits_value c :
  c < 65536 ->
  4096 * (c / 4096 mod 16) + 256 * (c / 256 mod 16)
  + 16 * (c / 16 mod 16) + c mod 16 = c.
Proof.
  intros H.
  pose proof (N.div_mod c 16 ltac:(lia)).
  pose proof (N.div_mod (c / 16) 16 ltac:(lia)).
  pose proof (N.div_mod (c / 16 / 16) 16 ltac:(lia)).
  assert (c / 16 / 16 / 16 < 16).
  { rewrite !N.Div0.div_div. change (16 * 16 * 16) with 4096.
    apply N.Div0.div_lt_upper_bound. lia. }
  replace (c / 256) with (c / 16 / 16) by now rewrite N.Div0.div_div.
  replace (c / 4096) with (c / 16 / 16 / 16) by now rewrite !N.Div0.div_div.
  rewrite (N.mod_small (c / 16 / 16 / 16) 16) by assumption.
  lia.
Qed.

(** What stands for one code unit is read back as that code unit. *)
Lemma read_unicode_escape c tail :
  c < 65536 ->
  read_chars (unicode_escape c ++ tail)
  = match read_chars tail with
    | Some (w, rest) => Some (c :: w, rest)
    | None => None
    end.
Proof.
  intros H. unfold unicode_escape. cbn [app read_chars].
  change (92 =? 34) with false. change (92 =? 92) with true.
  change (117 =? 117) with true. cbv iota.
  rewrite !hex_value_digit by (apply N.mod_lt; lia).
  rewrite (hex_digits_value c H). reflexivity.
Qed.

Lemma read_plain c tail :
  c <> 34 -> c <> 92 ->
  read_chars (c :: tail)
  = match read_chars tail with
    | Some (w, rest) => Some (c :: w, rest)
    | None => None
    end.
Proof.
  intros H1 H2. cbn [read_chars].
  destruct (N.eqb_spec c 34); [contradiction|].
  destruct (N.eqb_spec c 92); [contradiction|]. reflexivity.
Qed.

Lemma read_escape_unit c tail :
  read_chars (escape_unit c ++ tail)
  = match read_chars tail with
    | Some (w, rest) => Some (c :: w, rest)
    | None => None
    end.
Proof.
  unfold escape_unit.
  destruct (N.eqb_spec c 8) as [->|]; [reflexivity|].
  destruct (N.eqb_spec c 9) as [->|]; [reflexivity|].
  destruct (N.eqb_spec c 10) as [->|]; [reflexivity|].
  destruct (N.eqb_spec c 12) as [->|]; [reflexivity|].
  destruct (N.eqb_spec c 13) as [->|]; [reflexivity|].
  destruct (N.eqb_spec c 34) as [->|]; [reflexivity|].
  destruct (N.eqb_spec c 92) as [->|]; [reflexivity|].
  destruct ((c <? 32) || leading_surrogate c || trailing_surrogate c) eqn:E.
  - apply read_unicode_escape.
    unfold leading_surrogate, trailing_surrogate in E.
    rewrite !orb_true_iff, !andb_true_iff, N.ltb_lt, !N.leb_le in E. lia.
  - now apply read_plain.
Qed.

Lemma read_quote_chars_bounded n :
  forall s rest, (length s <= n)%nat ->
    read_chars (quote_chars s ++ 34 :: rest) = Some (s, rest).
Proof.
  induction n as [|n IH]; intros s rest Hn.
  - destruct s; [reflexivity | simpl in Hn; lia].
  - destruct s as [|c [|d s]]; [reflexivity | |].
    + cbn [quote_chars]. rewrite read_escape_unit. reflexivity.
    + cbn [quote_chars].
      destruct (leading_surrogate c && trailing_surrogate d) eqn:E.
      * apply andb_true_iff in E as [Ec Ed].
        unfold leading_surrogate in Ec. unfold trailing_surrogate in Ed.
        rewrite andb_true_iff, !N.leb_le in Ec, Ed.
        rewrite <- !app_comm_cons.
        rewrite read_plain, read_plain by lia.
        rewrite IH by (simpl in Hn; lia). reflexivity.
      * rewrite <- app_assoc, read_escape_unit.
        rewrite (IH (d :: s)) by (simpl in Hn; simpl; lia). reflexivity.
Qed.

(** A string written by [quote] is read back, and what follows the closing
    quote is left to read. *)
Lemma read_quote_chars s rest :
  read_chars (quote_chars s ++ 34 :: rest) = Some (s, rest).
Proof. now apply (read_quote_chars_bounded (length s)). Qed.

Lemma expect_app p s : expect p (p ++ s) = Some s.
Proof.
  induction p as [|a p IH]; [reflexivity|]. cbn [app expect].
  now rewrite N.eqb_refl.
Qed.

Lemma read_stringify_form f :
  read_form (Contact.stringify_form f) = Some f.
Proof.
  unfold read_form, Contact.stringify_form, stringify_object, quote.
  cbn [map fst snd].
  repeat rewrite <- app_assoc.
  change (quote_chars (js "name")) with (js "name").
  change (quote_chars (js "email")) with (js "email").
  change (quote_chars (js "message")) with (js "message").
  change ([123] ++ [34] ++ js "name" ++ [34] ++ [58] ++ [34] ++ ?x)
    with (([123; 34] ++ js "name" ++ [34; 58; 34]) ++ x).
  rewrite expect_app. cbn [mbind option_bind].
  change ([34] ++ ?x) with (34 :: x) at 1.
  rewrite read_quote_chars. cbn [mbind option_bind].
  change ([44] ++ [34] ++ js "email" ++ [34] ++ [58] ++ [34] ++ ?x)
    with (([44; 34] ++ js "email" ++ [34; 58; 34]) ++ x).
  rewrite expect_app. cbn [mbind option_bind].
  change ([34] ++ ?x) with (34 :: x) at 1.
  rewrite read_quote_chars. cbn [mbind option_bind].
  change ([44] ++ [34] ++ js "message" ++ [34] ++ [58] ++ [34] ++ ?x)
    with (([44; 34] ++ js "message" ++ [34; 58; 34]) ++ x).
  rewrite expect_app. cbn [mbind option_bind].
  change ([34] ++ [125]) with (34 :: [125]).
  rewrite read_quote_chars. cbn [mbind option_bind].
  destruct f. reflexivity.
Qed.

(** X2. The body of the contact request holds the three fields and nothing is
    lost in it: a reader of JSON gets back the name, the email and the
    message exactly as typed, whatever code units they hold, quotes,
    backslashes, control characters and lone surrogates included; so two
    forms that differ are never sent as the same body. *)
Theorem payload_read_back env (f : Contact.Form) :
  (exists b, body (Contact.contact_request env f) = Some b
             /\ read_form b = Some f)
  /\ forall g, Contact.stringify_form f = Contact.stringify_form g -> f = g.
Proof.
  split.
  - eexists. split; [reflexivity | apply read_stringify_form].
  - intros g E. pose proof (read_stringify_form f) as Hf.
    rewrite E, read_stringify_form in Hf. congruence.
Qed.

Lemma payload_read_back_witness :
  read_form (Contact.stringify_form
               {| Contact.name := [34; 92; 10; 55357];
                  Contact.email := js "a@b";
                  Contact.message := [55357; 56832; 1; 47] |})
  = Some {| Contact.name := [34; 92; 10; 55357];
            Contact.email := js "a@b";
            Contact.message := [55357; 56832; 1; 47] |}.
Proof.
  destruct (payload_read_back None
              {| Contact.name := [34; 92; 10; 55357];
                 Contact.email := js "a@b";
                 Contact.message := [55357; 56832; 1; 47] |})
    as [(b & Hb & Hr) _].
  injection Hb as <-. exact Hr.
Defined.

End JSONFacts.

(** ** More on the gallery *)

Module ProjectsMore.
Import Projects ProjectsPage SetFacts.

Lemma load_failure_shows_error_witness :
  render (run (load None) (fun _ => Rejected) initial).1
  = Ok {| pills := [js "All"];
          shown := ErrorText (js "Could not load projects") |}.
Proof.
  apply ProjectsFacts.load_failure_shows_error. intros req. left. reflexivity.
Defined.

(** X8. Whatever the network answers, [load] sends one GET request with no
    body, leaves the loading flag down and the filter on All, and leaves
    either an error or data, never both: the error message with the empty
    array of the first render, or no error with the value the body parsed
    to. *)
Theorem load_settles env (net : Request -> outcome (data Project)) :
  let r := run (load env) net initial in
  requests r.2 = [load_request env]
  /\ loading r.1 = false
  /\ active r.1 = js "All"
  /\ ((error r.1 = js "Could not load projects" /\ projects r.1 = JArr []
       /\ (net (load_request env) = Rejected
           \/ exists b, net (load_request env) = Resolved {| ok := b; json := None |}))
      \/ (error r.1 = []
          /\ exists b d, net (load_request env)
                         = Resolved {| ok := b; json := Some d |}
                         /\ projects r.1 = d)).
Proof.
  cbv zeta. unfold load. cbn [run fst snd]. fold (load_request env).
  destruct (net (load_request env)) as [[b [d|]]|]; cbn [json run fst snd].
  - repeat split. right. split; [reflexivity|]. exists b, d. auto.
  - repeat split. left. repeat split. right. exists b. reflexivity.
  - repeat split. left. repeat split. left. reflexivity.
Qed.

(** With an array stored, the render does not throw and the pills are All
    followed by the tags of the array. *)
Lemma render_array st ps :
  projects st = JArr ps ->
  exists content,
    render st = Ok {| pills := js "All" :: new_Set (all_tags ps);
                      shown := content |}.
Proof.
  intros E. unfold render, tags_of, filtered_of, flatMap_tags. rewrite E.
  cbn [bind Array_from]. fold (all_tags ps).
  destruct (same_string (active st) (js "All")); cbn [bind];
    destruct (loading st); cbn [bind]; eauto;
    destruct (truthy_string (error st)); cbn [bind]; eauto.
Qed.

(** X9. After [load] has settled on a response whose body parsed, whatever
    its status: when the body is an array of project records the gallery
    does not throw and shows, under the pills All and the tags of the
    array, one card for each record in fetched order; when the body is not
    an array (null, a boolean, a number, a string, an object) the render
    throws, since only an array has [flatMap]. *)
Theorem render_after_load env (b : bool) (d : data Project) :
  let st := (run (load env) (fun _ => Resolved {| ok := b; json := Some d |})
               initial).1 in
  (forall ps, d = JArr ps ->
     render st = Ok {| pills := js "All" :: new_Set (all_tags ps);
                       shown := Grid ps |})
  /\ ((forall ps, d <> JArr ps) -> render st = Throw TypeError).
Proof.
  cbv zeta. unfold load. cbn [run fst snd json]. split.
  - intros ps ->. reflexivity.
  - intros H. destruct d as [| | | | |ps]; try reflexivity. now destruct (H ps).
Qed.

Lemma render_after_load_witness :
  render (run (load None)
            (fun _ => Resolved {| ok := true; json := Some (JNum (404 # 1)) |})
            initial).1
  = Throw TypeError.
Proof.
  apply (render_after_load None true (JNum (404 # 1))).
  intros ps. discriminate.
Defined.

(** X10. No pill leads to an empty grid: every tag among the pills selects at
    least one project. *)
Theorem every_pill_selects (ps : list Project) (ts : list jsstring) (t : jsstring) :
  tags_of (JArr ps) = Ok ts -> t ∈ ts ->
  exists p rest, filtered_of (JArr ps) t = Ok (JArr (p :: rest)).
Proof.
  intros E Ht. injection E as <-. unfold Array_from in Ht.
  apply (proj1 (new_Set_elem _ _)) in Ht.
  apply (proj1 (ProjectsFacts.all_tags_elem _ _)) in Ht as (p & Hp & Hpt).
  unfold filtered_of. destruct (same_string t (js "All")).
  - destruct ps as [|q ps]; [inversion Hp | eauto].
  - rewrite ProjectsFacts.filter_has_tag.
    assert (H : p ∈ filter (tagged t) ps) by (apply list_elem_of_filter; auto).
    destruct (filter (tagged t) ps) as [|q rest]; [inversion H | eauto].
Qed.

Lemma every_pill_selects_witness :
  exists p rest, filtered_of (JArr gallery) (js "React") = Ok (JArr (p :: rest)).
Proof.
  apply (every_pill_selects gallery [js "Rust"; js "Systems"; js "React"]).
  - reflexivity.
  - apply list_elem_of_In. simpl. auto.
Defined.

(** *** The invariant of the page *)

Lemma gallery_inv_mounted env : inv env (mounted env).
Proof.
  split; [reflexivity|]. left. split; [reflexivity|].
  eexists. split; reflexivity.
Qed.

Lemma gallery_inv_click env i c : inv env c -> inv env (click i c).
Proof.
  intros (Hs & H). unfold click.
  destruct (render (state c)) as [v|e] eqn:Er; [|now split].
  destruct (pills v !! i) as [t|] eqn:Et; [|now split].
  unfold dispatch. cbn [suspend fst snd].
  split; [exact Hs|]. cbn [state in_flight].
  destruct H as [(Ei & k & Hk & Hload) | (Hn & Hl & Ha)].
  - left. rewrite Ei in Er. injection Er as <-. cbn [pills] in Et.
    destruct i as [|i]; [|destruct i; discriminate].
    injection Et as <-. rewrite Ei. split; [reflexivity | eauto].
  - right. split; [exact Hn|]. split; [exact Hl|].
    cbn [setActive projects active]. intros ps E.
    destruct (render_array _ _ E) as [content Hc].
    rewrite Hc in Er. injection Er as <-. cbn [pills] in Et.
    eapply list_elem_of_lookup_2. exact Et.
Qed.

Lemma gallery_inv_settle env n o c : inv env c -> inv env (settle n o c).
Proof.
  intros (Hs & H). unfold settle.
  destruct (in_flight c !! n) as [k|] eqn:E; [|now split].
  destruct H as [(Ei & k' & Hk & Hload) | (Hn & Hl & Ha)].
  2:{ rewrite Hn in E. discriminate. }
  rewrite Hk in E. destruct n as [|n]; [|discriminate]. injection E as <-.
  cbn [suspend load snd] in Hload. injection Hload as <-.
  unfold dispatch. cbn [state in_flight sent]. rewrite Hk, Ei.
  cbn [delete list_delete].
  destruct o as [[b [d|]]|]; cbn [json suspend fst snd];
    (split; [exact Hs|]); right; cbn [state in_flight];
    (split; [reflexivity|]); (split; [reflexivity|]);
    cbn [setLoading setProjects setError projects active initial];
    intros ps _; apply list_elem_of_here.
Qed.

Lemma gallery_inv_fold env inputs c : inv env c -> inv env (fold_left step inputs c).
Proof.
  revert c. induction inputs as [|i inputs IH]; intros c H; [exact H|].
  cbn [fold_left]. apply IH. destruct i; cbn [step].
  - now apply gallery_inv_click.
  - now apply gallery_inv_settle.
Qed.

Lemma gallery_inv_after env inputs : inv env (after env inputs).
Proof. apply gallery_inv_fold, gallery_inv_mounted. Qed.

(** X11. The highlighted pill is always there: after any sequence of clicks and
    whenever the response arrives, if the gallery renders then its active
    filter is one of the pills it shows. *)
Theorem active_pill_is_shown env (inputs : list input) (v : View) :
  render (state (after env inputs)) = Ok v ->
  active (state (after env inputs)) ∈ pills v.
Proof.
  intros Er. destruct (gallery_inv_after env inputs) as (_ & H).
  destruct H as [(Ei & _) | (_ & _ & Ha)].
  - rewrite Ei in *. injection Er as <-. apply list_elem_of_here.
  - destruct (projects (state (after env inputs))) as [| | | | |ps] eqn:E;
      try (unfold render, tags_of, flatMap_tags in Er; rewrite E in Er;
           discriminate).
    destruct (render_array _ _ E) as [content Hc]. rewrite Hc in Er.
    injection Er as <-. cbn [pills]. now apply Ha.
Qed.

Lemma active_pill_is_shown_witness :
  active (state (after None
            [Click 0; Settle 0 (Resolved {| ok := true; json := Some (JArr gallery) |});
             Click 3]))
  ∈ [js "All"; js "Rust"; js "Systems"; js "React"].
Proof.
  apply (active_pill_is_shown None
           [Click 0; Settle 0 (Resolved {| ok := true; json := Some (JArr gallery) |});
            Click 3]
           {| pills := [js "All"; js "Rust"; js "Systems"; js "React"];
              shown := Grid [project "feed" (Some [js "React"; js "Rust"])] |}).
  reflexivity.
Defined.

(** X12. The gallery fetches once: whatever is clicked and whenever the response
    arrives, one request has been sent, the one of [load]; it is in flight
    exactly while the loading flag is up. *)
Theorem gallery_fetches_once env (inputs : list input) :
  let c := after env inputs in
  sent c = [load_request env]
  /\ (length (in_flight c) <= 1)%nat
  /\ (loading (state c) = true <-> length (in_flight c) = 1%nat).
Proof.
  cbv zeta. destruct (gallery_inv_after env inputs) as (Hs & H).
  split; [exact Hs|].
  destruct H as [(Ei & k & Hk & _) | (Hn & Hl & _)].
  - rewrite Hk, Ei. cbn [length loading initial]. split; [lia|]. tauto.
  - rewrite Hn, Hl. cbn [length]. split; [lia|]. split; [discriminate | lia].
Qed.

Lemma gallery_fetches_once_witness :
  loading (state (after None [Click 0; Click 1])) = true.
Proof.
  apply (gallery_fetches_once None [Click 0; Click 1]). reflexivity.
Defined.

End ProjectsMore.

(** ** More on the posts *)

Module BlogMore.
Import Blog.

(** X14. The posts shown are those of the response: if [Blog] renders its
    section after the effect has settled, then the request resolved with a
    body that parsed to a non-empty array, whatever the status of the
    response, and the section holds the elements of that array, all of them
    and in order. *)
Theorem shown_posts_come_from_response env
    (net : Request -> outcome (data Post)) (xs : list Post) :
  let req := {| url := BACKEND env ++ js "/api/posts"; method := GET;
                headers := []; body := None |} in
  render (run (load env) net initial).1 = Ok (Some xs) ->
  xs <> []
  /\ exists b, net req = Resolved {| ok := b; json := Some (JArr xs) |}.
Proof.
  cbv zeta. unfold load. cbn [run fst snd].
  destruct (net _) as [[b [d|]]|]; cbn [json run fst snd]; try discriminate.
  unfold render, no_length, setPosts. cbn [posts].
  destruct d as [|c|n|s|props|ys]; cbn [bind]; try discriminate.
  - destruct (truthy_string s); discriminate.
  - destruct (list_find _ (reverse props)) as [[i [k v]]|]; cbn [bind];
      [destruct (truthy_string v)|]; discriminate.
  - destruct ys as [|y ys]; [discriminate|].
    intros [= <-]. split; [discriminate | eauto].
Qed.

Lemma shown_posts_come_from_response_witness :
  exists b,
    Resolved {| ok := false; json := Some (JArr [hello]) |}
    = Resolved {| ok := b; json := Some (JArr [hello]) |}.
Proof.
  apply (shown_posts_come_from_response None
           (fun _ => Resolved {| ok := false; json := Some (JArr [hello]) |})
           [hello]).
  reflexivity.
Defined.

(** X15. A response of any status, a successful one included, whose body is
    the JSON value null or a non-empty JSON string makes the render of
    [Blog] throw once the effect has settled: null has no [length], and a
    string has a length but no [map]. *)
Theorem null_or_string_body_throws env (b : bool) :
  render
    (run (load env) (fun _ => Resolved {| ok := b; json := Some JNull |})
       initial).1
  = Throw TypeError
  /\ forall s, s <> [] ->
       render
         (run (load env)
            (fun _ => Resolved {| ok := b; json := Some (JStr s) |}) initial).1
       = Throw TypeError.
Proof.
  split; [reflexivity|]. intros s Hs. now destruct s.
Qed.

Lemma null_or_string_body_throws_witness :
  render
    (run (load None)
       (fun _ => Resolved {| ok := true; json := Some (JStr (js "ok")) |})
       initial).1
  = Throw TypeError.
Proof.
  apply (null_or_string_body_throws None true). discriminate.
Defined.

(** X16. The posts effect sends one GET request with no body and never reads
    the status of the response: a body that parses is stored whatever the
    status, and on a rejected request or a body that does not parse the
    posts stay the empty array of the first render. *)
Theorem posts_load_settles env (net : Request -> outcome (data Post)) :
  let req := {| url := BACKEND env ++ js "/api/posts"; method := GET;
                headers := []; body := None |} in
  let r := run (load env) net initial in
  requests r.2 = [req]
  /\ posts r.1 = match net req with
                 | Resolved res =>
                     match json res with
                     | Some d => d
                     | None => JArr []
                     end
                 | Rejected => JArr []
                 end.
Proof.
  cbv zeta. unfold load. cbn [run fst snd].
  destruct (net _) as [[b [d|]]|]; cbn [json run fst snd]; split; reflexivity.
Qed.

End BlogMore.
